(** * ObstacleFreePath: an RRT* planner over an obstacle grid

    A shallow embedding of [src/main.cpp]: the grid editor (mouse and key
    handling), the occupancy queries ([isInsideGrid], [isObstacle],
    [collisionFree]), the RRT* loop of [main] and the path smoothing of
    [smoothPath].

    Numbers.  The program computes on [float] pixel coordinates.  A float is
    a rational number, and the embedding takes the type [Q] for it.  The
    operators of [cv::Point2f], the quotient [i / 10.0f] of [collisionFree]
    and the product [cellSize * 0.6f] of the goal test round their result to
    IEEE binary32, to the nearest float with ties to the even mantissa
    ([binary32] below); a float beyond the largest finite one does not
    arise from pixel coordinates and is not modelled.  The costs of the
    nodes are added exactly, which is the reading "within floating
    tolerance" of the specification, and so is the quotient of a pixel
    coordinate by the cell size.  The conversion of a float to [int]
    truncates toward zero, as C++ does.  [std::sqrt] and [std::log] belong
    to the C++ library, not to the repository; they are parameters of the
    development ([sqrtQ], [logQ]), and [cv::norm] is OpenCV's
    [sqrt (x*x + y*y)] over them.  The random draws [dis(rng)] are a
    parameter too: [rand i] is the point drawn in iteration [i].

    Undefined behaviour of the C++ text that the embedding does not follow:
    a float too large for [int] in a conversion, a division by a [cellSize]
    of 0 (a grid of more than 500 cells a side), and [tree[-1]] (made
    explicit as [Fault] in the loop). *)

From Stdlib Require Import ZArith QArith Qabs Qround Qminmax Qreduction Lqa Lia List.
From stdpp Require Import base decidable list gmap.

Open Scope Q_scope.

(** ** Numbers *)

(** [(int) q] for a float [q]: truncation toward zero. *)
Definition Qtrunc (q : Q) : Z := Z.quot (Qnum q) (Zpos (Qden q)).

(** [x < y] on floats, as a boolean. *)
Definition Qltb (x y : Q) : bool := negb (Qle_bool y x).

(** [std::min (a, b)]: [b] when [b < a], else [a]. *)
Definition std_min (a b : Q) : Q := if Qltb b a then b else a.

(** [std::clamp (v, lo, hi)]. *)
Definition std_clamp (v lo hi : Q) : Q :=
  if Qltb v lo then lo else if Qltb hi v then hi else v.

(** The order of two rationals from their comparison, in a hypothesis. *)
Ltac compared E :=
  match type of E with
  | Qcompare _ _ = Eq => apply (proj2 (Qeq_alt _ _)) in E
  | Qcompare _ _ = Lt => apply (proj2 (Qlt_alt _ _)) in E
  | Qcompare _ _ = Gt => apply (proj2 (Qgt_alt _ _)) in E
  end.

(** ** Single precision

    A float is a multiple [m * 2^e] of a power of two with [|m| < 2^24] and
    [e >= -149].  In units of [2^-149] the floats below [2^24] are the
    integers, and from [2^(k+23)] to [2^(k+24)] they are the multiples of
    [2^k]. *)

(** The integer nearest to [q], the even one of the two when [q] lies half
    way. *)
Definition round_even (q : Q) : Z :=
  let f := Qfloor q in
  match Qcompare (q - inject_Z f) (1 # 2) with
  | Lt => f
  | Gt => (f + 1)%Z
  | Eq => if Z.even f then f else (f + 1)%Z
  end.

(** The exponent [k] of the spacing [2^k] of the floats around [X], in units
    of [2^-149]. *)
Definition spacing (X : Q) : Z := Z.max 0 (Z.log2 (Qfloor (Qabs X)) - 23).

(** The multiple of the spacing nearest to [X], ties to even. *)
Definition round_units (X : Q) : Z :=
  (round_even (X / inject_Z (2 ^ spacing X)) * 2 ^ spacing X)%Z.

(** The float nearest to [x], ties to even. *)
Definition binary32 (x : Q) : Q :=
  Qred (inject_Z (round_units (x * inject_Z (2 ^ 149))) / inject_Z (2 ^ 149)).

#[global] Opaque binary32.

(** [x + y], [x - y], [x * y] and [x / y] on [float]. *)
Definition fadd (x y : Q) : Q := binary32 (x + y).
Definition fsub (x y : Q) : Q := binary32 (x - y).
Definition fmul (x y : Q) : Q := binary32 (x * y).
Definition fdiv (x y : Q) : Q := binary32 (x / y).

(** ** Points: [cv::Point2f] and its operators *)

Record Point := mkPoint { px : Q; py : Q }.

(** [a + b], [a - b] and [a * t] on [cv::Point2f]: each coordinate is
    computed in [float]. *)
Definition padd (a b : Point) : Point :=
  mkPoint (fadd (px a) (px b)) (fadd (py a) (py b)).
Definition psub (a b : Point) : Point :=
  mkPoint (fsub (px a) (px b)) (fsub (py a) (py b)).
Definition pscale (a : Point) (t : Q) : Point :=
  mkPoint (fmul (px a) t) (fmul (py a) t).

#[global] Instance Point_inhabited : Inhabited Point := populate (mkPoint 0 0).

(** The point [a + (b - a) * (i / 10)] of the segment from [a] to [b] in
    exact arithmetic, as the specification has it: the i-th of the ten
    equally spaced points. *)
Definition segment_point (a b : Point) (i : Z) : Point :=
  mkPoint (px a + (px b - px a) * (inject_Z i / 10))
          (py a + (py b - py a) * (inject_Z i / 10)).

(** Two points with equal coordinates. *)
Definition peq (a b : Point) : Prop := px a == px b /\ py a == py b.

(** [struct Node]: the parent is an index into the tree, [-1] for the root. *)
Record Node := mkNode { point : Point; parent : Z; cost : Q }.

#[global] Instance Node_inhabited : Inhabited Node :=
  populate (mkNode (mkPoint 0 0) (-1) 0).

(** [const int canvasSize = 500]. *)
Definition canvasSize : Z := 500.

(** [clampToGrid]. *)
Definition clampToGrid (pt : Point) : Point :=
  mkPoint (std_clamp (px pt) 0 (inject_Z (canvasSize - 1)))
          (std_clamp (py pt) 0 (inject_Z (canvasSize - 1))).

(** ** The global variables

    [start] and [goal] are [cv::Point (x, y)] in cells, [(-1, -1)] while
    unset; an obstacle is a cell [(row, col)]. The image [gridImg] is left
    out. *)

Record Globals := mkGlobals {
  gridSize : Z;
  cellSize : Z;
  start : Z * Z;
  goal : Z * Z;
  obstacles : gset (Z * Z);
  undoStack : list (Z * Z);
  redoStack : list (Z * Z);
  selectingStart : bool;
  configured : bool
}.

(** The initial values of the globals. *)
Definition initial_globals : Globals :=
  mkGlobals 5 0 (-1, -1)%Z (-1, -1)%Z ∅ [] [] true false.

(** ** The grid editor *)

Inductive MouseEvent := LBUTTONDOWN | RBUTTONDOWN | OtherMouseEvent.

Inductive Key := Key_u | Key_r | Key_s | OtherKey.

(** What the setup loop of [main] sees: a mouse event at pixel [(x, y)]
    delivered to [mouseCallback], or the key returned by [cv::waitKey]. *)
Inductive Event :=
| Mouse (ev : MouseEvent) (x y : Z)
| Pressed (k : Key).

(** [if (obstacles.count(cell)) obstacles.erase(cell); else obstacles.insert(cell);] *)
Definition toggle (cell : Z * Z) (obs : gset (Z * Z)) : gset (Z * Z) :=
  if bool_decide (cell ∈ obs) then obs ∖ {[cell]} else obs ∪ {[cell]}.

Definition mouseCallback (ev : MouseEvent) (x y : Z) (g : Globals) : Globals :=
  let col := Z.quot x (cellSize g) in
  let row := Z.quot y (cellSize g) in
  if (gridSize g <=? col)%Z || (gridSize g <=? row)%Z then g
  else
    let cell := (row, col) in
    match ev with
    | LBUTTONDOWN =>
        if bool_decide (start g = (col, row)) || bool_decide (goal g = (col, row))
        then g
        else mkGlobals (gridSize g) (cellSize g) (start g) (goal g)
               (toggle cell (obstacles g)) (cell :: undoStack g) []
               (selectingStart g) (configured g)
    | RBUTTONDOWN =>
        if selectingStart g
        then mkGlobals (gridSize g) (cellSize g) (col, row) (goal g)
               (obstacles g) (undoStack g) (redoStack g) false (configured g)
        else mkGlobals (gridSize g) (cellSize g) (start g) (col, row)
               (obstacles g) (undoStack g) (redoStack g)
               (selectingStart g) (configured g)
    | OtherMouseEvent => g
    end.

(** One round of [while (!configured)] for the key [k]. *)
Definition keyPressed (k : Key) (g : Globals) : Globals :=
  match k, undoStack g, redoStack g with
  | Key_u, cell :: undo', _ =>
      mkGlobals (gridSize g) (cellSize g) (start g) (goal g)
        (toggle cell (obstacles g)) undo' (cell :: redoStack g)
        (selectingStart g) (configured g)
  | Key_r, _, cell :: redo' =>
      mkGlobals (gridSize g) (cellSize g) (start g) (goal g)
        (toggle cell (obstacles g)) (cell :: undoStack g) redo'
        (selectingStart g) (configured g)
  | Key_s, _, _ =>
      if negb (fst (start g) =? -1)%Z && negb (fst (goal g) =? -1)%Z
      then mkGlobals (gridSize g) (cellSize g) (start g) (goal g)
             (obstacles g) (undoStack g) (redoStack g) (selectingStart g) true
      else g
  | _, _, _ => g
  end.

Definition handle (e : Event) (g : Globals) : Globals :=
  match e with
  | Mouse ev x y => mouseCallback ev x y g
  | Pressed k => keyPressed k g
  end.

(** The setup loop: events are handled until [configured] is set; the
    events after that are not seen (the window is destroyed). *)
Fixpoint setup (evs : list Event) (g : Globals) : Globals :=
  match evs with
  | [] => g
  | e :: rest => if configured g then g else setup rest (handle e g)
  end.

(** [std::cin >> gridSize; cellSize = canvasSize / gridSize;] *)
Definition readGridSize (n : Z) (g : Globals) : Globals :=
  mkGlobals n (Z.quot canvasSize n) (start g) (goal g) (obstacles g)
    (undoStack g) (redoStack g) (selectingStart g) (configured g).

(** The globals when the setup loop of [main] is left (or when the events
    have run out). *)
Definition configure (n : Z) (evs : list Event) : Globals :=
  setup evs (readGridSize n initial_globals).

(** ** The occupancy queries *)

Section Occupancy.

Variable g : Globals.

(** The cell [(r, c)] of a point: [int r = pt.y / cellSize, c = pt.x / cellSize]. *)
Definition cellOf (pt : Point) : Z * Z :=
  (Qtrunc (py pt / inject_Z (cellSize g)), Qtrunc (px pt / inject_Z (cellSize g))).

Definition isInsideGrid (pt : Point) : bool :=
  let '(r, c) := cellOf pt in
  (0 <=? r)%Z && (r <? gridSize g)%Z && (0 <=? c)%Z && (c <? gridSize g)%Z.

Definition isObstacle (pt : Point) : bool :=
  if negb (isInsideGrid pt) then true
  else bool_decide (cellOf pt ∈ obstacles g).

(** The point of round [i] in [collisionFree]: [a + (b - a) * (i / 10.0f)],
    the difference, the quotient, the product and the sum each rounded to
    [float]. *)
Definition sample (a b : Point) (i : Z) : Point :=
  padd a (pscale (psub b a) (fdiv (inject_Z i) 10)).

(** The loop of [collisionFree] over the rounds [ks], left at the first
    sample that is outside the grid or in an obstacle. *)
Fixpoint collisionFree_loop (a b : Point) (ks : list Z) : bool :=
  match ks with
  | [] => true
  | i :: rest =>
      let pt := sample a b i in
      if negb (isInsideGrid pt) || isObstacle pt then false
      else collisionFree_loop a b rest
  end.

(** [for (int i = 1; i <= 10; ++i)]. *)
Definition rounds : list Z := [1; 2; 3; 4; 5; 6; 7; 8; 9; 10]%Z.

Definition collisionFree (a b : Point) : bool := collisionFree_loop a b rounds.

End Occupancy.

(** ** The planner *)

(** How one round of the main loop ends: with [continue], with a node
    appended (the tree after the rewiring, the index and the position of the
    node), or in [tree[-1]] when no node is nearer than [1e9]. *)
Inductive Round :=
| Skipped
| Inserted (tree : list Node) (newIdx : nat) (newPt : Point)
| Fault.

(** How the main loop ends: [goalIdx] set by [break], or the rounds used up
    with [goalIdx == -1]. *)
Inductive LoopEnd :=
| PathFound (tree : list Node) (goalIdx : nat)
| Exhausted (tree : list Node)
| Aborted.

(** What the first half of a round comes to: [continue], the access
    [tree[-1]], or the node to append with the radius of its neighbourhood. *)
Inductive Candidate :=
| NoCandidate
| BadIndex
| Chosen (newPt : Point) (bestParent : Z) (bestCost radius : Q).

Section Planner.

Variable g : Globals.

(** [std::sqrt] and [std::log]. *)
Variable sqrtQ : Q -> Q.
Variable logQ : Q -> Q.

(** The point [(dis(rng), dis(rng))] drawn in round [i]. *)
Variable rand : nat -> Point.

(** [cv::norm] of a [Point2f]. *)
Definition norm (p : Point) : Q := sqrtQ (px p * px p + py p * py p).

Definition dist (a b : Point) : Q := norm (psub a b).

(** The centre of a cell: [(c.x * cellSize + cellSize / 2, c.y * cellSize + cellSize / 2)]. *)
Definition centre (c : Z * Z) : Point :=
  mkPoint (inject_Z (fst c * cellSize g + Z.quot (cellSize g) 2))
          (inject_Z (snd c * cellSize g + Z.quot (cellSize g) 2)).

Definition startPt : Point := centre (start g).
Definition goalPt : Point := centre (goal g).

(** [std::vector<Node> tree = {{startPt, -1, 0}}]. *)
Definition initial_tree : list Node := [mkNode startPt (-1) 0].

Definition MAX_ITER : nat := Z.to_nat 10000.

(** The search of the nearest node, [k] rounds from index [j]:
    [if (d < bestDist) bestDist = d, nearest = j]. *)
Fixpoint nearest_loop (k j : nat) (tree : list Node) (randPt : Point)
    (nearest : Z) (bestDist : Q) : Z * Q :=
  match k with
  | O => (nearest, bestDist)
  | S k' =>
      let d := dist (point (tree !!! j)) randPt in
      if Qltb d bestDist
      then nearest_loop k' (S j) tree randPt (Z.of_nat j) d
      else nearest_loop k' (S j) tree randPt nearest bestDist
  end.

(** [50.0f * std::sqrt (std::log (tree.size() + 1) / (tree.size() + 1))]. *)
Definition neighbourhood (size : nat) : Q :=
  50 * sqrtQ (logQ (inject_Z (Z.of_nat size + 1)) / inject_Z (Z.of_nat size + 1)).

(** The choice of the parent, [k] rounds from index [j]. *)
Fixpoint parent_loop (k j : nat) (tree : list Node) (newPt : Point) (radius : Q)
    (bestParent : Z) (bestCost : Q) : Z * Q :=
  match k with
  | O => (bestParent, bestCost)
  | S k' =>
      let nj := tree !!! j in
      if Qltb (dist (point nj) newPt) radius && collisionFree g (point nj) newPt
      then
        let c := cost nj + dist (point nj) newPt in
        if Qltb c bestCost
        then parent_loop k' (S j) tree newPt radius (Z.of_nat j) c
        else parent_loop k' (S j) tree newPt radius bestParent bestCost
      else parent_loop k' (S j) tree newPt radius bestParent bestCost
  end.

(** What the rewiring does at index [j]: [tree[j].parent = newIdx;
    tree[j].cost = newCost] when the way through the new node is cheaper. *)
Definition rewire_at (j : nat) (tree : list Node) (newIdx : nat) (newPt : Point)
    (bestCost radius : Q) : list Node :=
  if (j =? newIdx)%nat then tree
  else
    let nj := tree !!! j in
    if Qltb (dist (point nj) newPt) radius && collisionFree g newPt (point nj)
    then
      let newCost := bestCost + dist newPt (point nj) in
      if Qltb newCost (cost nj)
      then <[j := mkNode (point nj) (Z.of_nat newIdx) newCost]> tree
      else tree
    else tree.

(** The rewiring, [k] rounds from index [j]. *)
Fixpoint rewire_loop (k j : nat) (tree : list Node) (newIdx : nat) (newPt : Point)
    (bestCost radius : Q) : list Node :=
  match k with
  | O => tree
  | S k' =>
      rewire_loop k' (S j) (rewire_at j tree newIdx newPt bestCost radius)
        newIdx newPt bestCost radius
  end.

(** The first half of round [i]: the draw, the nearest node, the step and
    the choice of the parent. *)
Definition candidate (i : nat) (tree : list Node) : Candidate :=
  let randPt := if (i mod 5 =? 0)%nat then goalPt else clampToGrid (rand i) in
  if negb (isInsideGrid g randPt) || isObstacle g randPt then NoCandidate
  else
    let '(nearest, bestDist) :=
      nearest_loop (length tree) 0 tree randPt (-1) (inject_Z (10 ^ 9)) in
    if (nearest =? -1)%Z then BadIndex
    else
      let near := tree !!! Z.to_nat nearest in
      let stepSize := std_min 50 bestDist in
      let dir := psub randPt (point near) in
      if Qeq_bool (norm dir) 0 then NoCandidate
      else
        let dir := pscale dir (stepSize / norm dir) in
        let newPt := clampToGrid (padd (point near) dir) in
        if negb (isInsideGrid g newPt) || negb (collisionFree g (point near) newPt)
        then NoCandidate
        else
          let radius := neighbourhood (length tree) in
          let '(bestParent, bestCost) :=
            parent_loop (length tree) 0 tree newPt radius nearest
              (cost near + dist (point near) newPt) in
          Chosen newPt bestParent bestCost radius.

(** Round [i] of the main loop, up to the test of the goal: the node is
    appended and the tree is rewired. *)
Definition iteration (i : nat) (tree : list Node) : Round :=
  match candidate i tree with
  | NoCandidate => Skipped
  | BadIndex => Fault
  | Chosen newPt bestParent bestCost radius =>
      let newIdx := length tree in
      let tree := tree ++ [mkNode newPt bestParent bestCost] in
      Inserted (rewire_loop (length tree) 0 tree newIdx newPt bestCost radius)
        newIdx newPt
  end.

(** [cellSize * 0.6f]: the [int] is converted to [float], [0.6f] is the
    float nearest to 6/10, and the product is rounded. *)
Definition capture_radius : Q :=
  fmul (binary32 (inject_Z (cellSize g))) (binary32 (6 # 10)).

(** [dist (newPt, goalPt) < cellSize * 0.6f]. *)
Definition captured (newPt : Point) : bool :=
  Qltb (dist newPt goalPt) capture_radius.

(** A round that does not end the loop: [continue], or a node that is not
    within the capture radius. *)
Definition goes_on (r : Round) : Prop :=
  match r with
  | Skipped => True
  | Inserted _ _ newPt => captured newPt = false
  | Fault => False
  end.

(** The main loop, [n] rounds from round [i]. *)
Fixpoint rrt_loop (n i : nat) (tree : list Node) : LoopEnd :=
  match n with
  | O => Exhausted tree
  | S n' =>
      match iteration i tree with
      | Skipped => rrt_loop n' (S i) tree
      | Fault => Aborted
      | Inserted tree' newIdx newPt =>
          if captured newPt then PathFound tree' newIdx
          else rrt_loop n' (S i) tree'
      end
  end.


Definition plan : LoopEnd := rrt_loop MAX_ITER 0 initial_tree.

(** ** The smoothing *)

(** The walk up the parents in [smoothPath], at most [fuel] nodes:
    [for (cur = goalIdx; cur != -1; cur = tree[cur].parent)]. *)
Fixpoint walk (fuel : nat) (tree : list Node) (cur : Z) (path : list Point)
    : option (list Point) :=
  if (cur =? -1)%Z then Some path
  else
    match fuel with
    | O => None
    | S fuel' =>
        let nd := tree !!! Z.to_nat cur in
        walk fuel' tree (parent nd) (path ++ [point nd])
    end.

(** The raw path, from the root to [goalIdx]. *)
Definition extractPath (fuel : nat) (tree : list Node) (goalIdx : Z)
    : option (list Point) :=
  match walk fuel tree goalIdx [] with
  | Some path => Some (rev path)
  | None => None
  end.

(** The inner loop [for (j = ...; j > i; --j) if (collisionFree (path[i], path[j])) break;]
    entered at [j]; the result is the [j] it is left with. *)
Fixpoint scan (path : list Point) (i j : nat) : nat :=
  match j with
  | O => O
  | S j' =>
      if (i <? j)%nat
      then if collisionFree g (path !!! i) (path !!! j) then j else scan path i j'
      else j
  end.

(** The outer loop from the anchor [i], at most [fuel] rounds. *)
Fixpoint smooth_loop (fuel : nat) (path : list Point) (i : nat)
    (smoothed : list Point) : option (list Point) :=
  if (i <? length path - 1)%nat
  then
    match fuel with
    | O => None
    | S fuel' =>
        let j := scan path i (length path - 1) in
        smooth_loop fuel' path j (smoothed ++ [path !!! j])
    end
  else Some smoothed.

(** The second half of [smoothPath]: [smoothed = { path.front() }] and the
    shortcut loop. *)
Definition smooth (fuel : nat) (path : list Point) : option (list Point) :=
  smooth_loop fuel path 0 [path !!! 0%nat].

Definition smoothPath (fuel : nat) (tree : list Node) (goalIdx : Z)
    : option (list Point) :=
  match extractPath fuel tree goalIdx with
  | Some path => smooth fuel path
  | None => None
  end.

(** ** The states of the tree *)

(** [tree_at n tree]: [n] rounds have gone by without reaching the goal, and
    they have left [tree]. *)
Definition tree_at (n : nat) (tree : list Node) : Prop :=
  rrt_loop n 0 initial_tree = Exhausted tree.

(** The trees that the main loop goes through: the tree between two rounds,
    and the tree within a round, after the new node is appended and [k]
    rounds of the rewiring are done. *)
Inductive tree_state : list Node -> Prop :=
| state_between n tree :
    (n <= MAX_ITER)%nat -> tree_at n tree -> tree_state tree
| state_within n tree newPt bestParent bestCost radius k :
    (n < MAX_ITER)%nat -> tree_at n tree ->
    candidate n tree = Chosen newPt bestParent bestCost radius ->
    (k <= S (length tree))%nat ->
    tree_state
      (rewire_loop k 0 (tree ++ [mkNode newPt bestParent bestCost])
         (length tree) newPt bestCost radius).

(** The indices from [j] up the parents to the root. *)
Inductive chain (tree : list Node) : nat -> list nat -> Prop :=
| chain_root j :
    (j < length tree)%nat -> parent (tree !!! j) = (-1)%Z -> chain tree j [j]
| chain_step j p l :
    (j < length tree)%nat -> parent (tree !!! j) = Z.of_nat p ->
    chain tree p l -> chain tree j (j :: l).

(** Node [j] hangs on a node [p] of the tree, no cheaper than by way of [p],
    and the segment from [p] to it has passed [collisionFree]. *)
Definition edge_ok (tree : list Node) (j : nat) : Prop :=
  exists p : nat,
    parent (tree !!! j) = Z.of_nat p /\ (p < length tree)%nat /\
    cost (tree !!! p) + dist (point (tree !!! p)) (point (tree !!! j))
      <= cost (tree !!! j) /\
    collisionFree g (point (tree !!! p)) (point (tree !!! j)) = true.

(** A new node at [newPt] can hang on [bestParent] at the cost [bestCost]. *)
Definition hangs_on (tree : list Node) (newPt : Point) (bestParent : Z)
    (bestCost : Q) : Prop :=
  exists p : nat,
    bestParent = Z.of_nat p /\ (p < length tree)%nat /\
    bestCost = cost (tree !!! p) + dist (point (tree !!! p)) newPt /\
    collisionFree g (point (tree !!! p)) newPt = true.

Record well_formed (tree : list Node) : Prop := {
  wf_root : (0 < length tree)%nat /\ parent (tree !!! 0%nat) = (-1)%Z /\
            cost (tree !!! 0%nat) == 0;
  wf_edge : forall j, (0 < j < length tree)%nat -> edge_ok tree j;
  wf_cost : forall j, (j < length tree)%nat -> 0 <= cost (tree !!! j);
  wf_chain : forall j, (j < length tree)%nat -> exists l, chain tree j l
}.

(** The tree in the rewiring of a round: the new node is its last. *)
Definition rewiring (tree : list Node) (newIdx : nat) (newPt : Point)
    (bestCost : Q) : Prop :=
  well_formed tree /\ length tree = S newIdx /\
  point (tree !!! newIdx) = newPt /\ cost (tree !!! newIdx) = bestCost.



(** Every segment of a path has passed [collisionFree], in the direction of
    the path. *)
Definition segments_free (path : list Point) : Prop :=
  forall k, (S k < length path)%nat ->
    collisionFree g (path !!! k) (path !!! S k) = true.

(** The anchors that the shortcut loop goes through. *)
Inductive anchor (path : list Point) : nat -> Prop :=
| anchor_first : anchor path 0
| anchor_next i :
    anchor path i -> (i < length path - 1)%nat ->
    anchor path (scan path i (length path - 1)).

(** The anchors that the shortcut loop takes after [i] until it ends. *)
Inductive steps (path : list Point) : nat -> list nat -> Prop :=
| steps_done i : ~ (i < length path - 1)%nat -> steps path i []
| steps_next i js :
    (i < length path - 1)%nat ->
    steps path (scan path i (length path - 1)) js ->
    steps path i (scan path i (length path - 1) :: js).

End Planner.

(** ** The program *)

(** How [main] goes on: it stays in the setup loop, or it plans, and smooths
    the path when there is one. *)
Inductive Run :=
| Waiting (g : Globals)
| Planned (e : LoopEnd) (smoothed : option (list Point)).

Definition main (sqrtQ logQ : Q -> Q) (rand : nat -> Point)
    (n : Z) (evs : list Event) : Run :=
  let g := configure n evs in
  if configured g
  then
    match plan g sqrtQ logQ rand with
    | PathFound tree goalIdx =>
        Planned (PathFound tree goalIdx)
          (smoothPath g (length tree) tree (Z.of_nat goalIdx))
    | e => Planned e None
    end
  else Waiting g.

Definition planned (r : Run) : bool :=
  match r with
  | Planned _ _ => true
  | Waiting _ => false
  end.

(** ** Stand-ins for the library functions, and runs on them

    The theorems below hold for every [sqrtQ] and [logQ] (some ask that a
    square root is not negative).  The runs take these two: the square root
    to six decimals, rounded down, which is exact on the squares of such
    numbers, and the logarithm by its series in [(x - 1) / (x + 1)]. *)

Definition sqrt6 (q : Q) : Q :=
  Z.sqrt (Qnum q * 10 ^ 12 / Zpos (Qden q)) # 1000000.

(** [k] terms of [y + y^3 / 3 + y^5 / 5 + ...], from the term [ypow / d]. *)
Fixpoint atanh_series (k : nat) (y ypow : Q) (d : Z) : Q :=
  match k with
  | O => 0
  | S k' =>
      Qred (ypow / inject_Z d + atanh_series k' y (Qred (ypow * y * y)) (d + 2))
  end.

Definition ln_series (x : Q) : Q :=
  let y := (x - 1) / (x + 1) in 2 * atanh_series 30 y y 1.

(** A 5 x 5 grid without obstacles, the start in cell (0, 0) and the goal in
    cell (4, 0): two right clicks and the key [s]. *)
Definition open_grid : Globals :=
  configure 5 [Mouse RBUTTONDOWN 10 10; Mouse RBUTTONDOWN 410 10; Pressed Key_s].

(** Draws that take a detour to (82, 74) and then find the short way to it:
    the rounds 1 to 3; the other rounds draw the corner (0, 0). *)
Definition detour_rand (i : nat) : Point :=
  match i with
  | 1%nat => mkPoint 82 74
  | 2%nat => mkPoint 82 104
  | 3%nat => mkPoint 66 62
  | _ => mkPoint 0 0
  end.

(** The tree that a run of the main loop ends with. *)
Definition final_tree (e : LoopEnd) : list Node :=
  match e with
  | PathFound tree _ => tree
  | Exhausted tree => tree
  | Aborted => []
  end.

(** The tree after the rounds 0 to 3 of that run. *)
Definition detour_tree : list Node :=
  final_tree
    (rrt_loop open_grid sqrt6 ln_series detour_rand 4 0 (initial_tree open_grid)).

(** The tree of that run one round earlier. *)
Definition detour_tree3 : list Node :=
  final_tree
    (rrt_loop open_grid sqrt6 ln_series detour_rand 3 0 (initial_tree open_grid)).

(** A 5 x 5 grid with the cell (0, 0) an obstacle. *)
Definition corner_blocked : Globals :=
  configure 5 [Mouse LBUTTONDOWN 10 10].

(** A 5 x 5 grid with the cell (0, 1) an obstacle. *)
Definition second_blocked : Globals :=
  configure 5 [Mouse LBUTTONDOWN 110 10].

(** A 3 x 3 grid: the cells are 166 pixels wide and cover 498 of the 500. *)
Definition grid3 : Globals := configure 3 [].

(** Two right clicks on the same cell and the key [s]. *)
Definition same_cell : list Event :=
  [Mouse RBUTTONDOWN 10 10; Mouse RBUTTONDOWN 10 10; Pressed Key_s].

(** The cell (0, 0) is made an obstacle and then picked as the start. *)
Definition start_on_obstacle : list Event :=
  [Mouse LBUTTONDOWN 10 10; Mouse RBUTTONDOWN 10 10; Mouse RBUTTONDOWN 410 10;
   Pressed Key_s].

(** A path of two points whose one segment fails [collisionFree]: it ends in
    the obstacle cell of [corner_blocked]. *)
Definition blocked_path : list Point := [mkPoint 195 50; mkPoint 95 50].

(** The run on [same_cell]: the start is the goal. *)
Definition same_cell_plan : LoopEnd :=
  plan (configure 5 same_cell) sqrt6 ln_series detour_rand.


(** Three points of the cell (0, 1) of [corner_blocked], which is free. *)
Definition free_path : list Point :=
  [mkPoint 105 20; mkPoint 150 60; mkPoint 199 99].

(** The globals after the grid size 5 is read. *)
Definition empty_grid : Globals := readGridSize 5 initial_globals.

(** A 5 x 5 grid, the start in cell (0, 0) and the goal in cell (2, 0), at
    the pixel (250, 50). *)
Definition capture_grid : Globals :=
  configure 5 [Mouse RBUTTONDOWN 10 10; Mouse RBUTTONDOWN 210 10; Pressed Key_s].

(** Draws on the line to that goal: (150, 50) in round 1 and (190, 50), at
    60 pixels from the goal, in the other rounds. *)
Definition capture_rand (i : nat) : Point :=
  match i with
  | 1%nat => mkPoint 150 50
  | _ => mkPoint 190 50
  end.

(** A 4 x 4 grid, cells of 125 pixels, the goal in cell (2, 0), at the pixel
    (312, 62). *)
Definition grid4 : Globals :=
  configure 4 [Mouse RBUTTONDOWN 10 10; Mouse RBUTTONDOWN 260 10; Pressed Key_s].

(** * Properties *)

(** ** Numbers *)

Lemma Qltb_lt (x y : Q) : Qltb x y = true <-> x < y.
Proof.
  unfold Qltb. rewrite negb_true_iff. split.
  - intros H. apply Qnot_le_lt. intros Hle. apply Qle_bool_iff in Hle. congruence.
  - intros H. destruct (Qle_bool y x) eqn:E; [|reflexivity].
    apply Qle_bool_iff in E. exfalso. apply (Qlt_not_le _ _ H E).
Qed.

Lemma Qltb_ge (x y : Q) : Qltb x y = false <-> y <= x.
Proof. unfold Qltb. rewrite negb_false_iff. apply Qle_bool_iff. Qed.

(** On a float that is not negative the conversion to [int] is the floor. *)
Lemma Qtrunc_nonneg (q : Q) : 0 <= q -> Qtrunc q = Qfloor q.
Proof.
  destruct q as [n d]. unfold Qle, Qtrunc, Qfloor. simpl. intros H.
  apply Z.quot_div_nonneg; lia.
Qed.

(** On a float that is not positive it is the ceiling. *)
Lemma Qtrunc_nonpos (q : Q) : q <= 0 -> Qtrunc q = Qceiling q.
Proof.
  destruct q as [n d]. unfold Qle, Qtrunc, Qceiling, Qfloor. simpl. intros H.
  replace n with (- (- n))%Z at 1 by lia.
  rewrite Z.quot_opp_l by lia. f_equal.
  apply Z.quot_div_nonneg; lia.
Qed.

Lemma Qtrunc_ge (q : Q) (k : Z) : inject_Z k <= q -> (k <= Qtrunc q)%Z.
Proof.
  intros H.
  assert (Hf : (k <= Qfloor q)%Z).
  { rewrite <- (Qfloor_Z k). apply Qfloor_resp_le, H. }
  destruct (Qlt_le_dec q 0) as [Hq|Hq].
  - rewrite Qtrunc_nonpos by lra.
    assert (Hc : (Qfloor q <= Qceiling q)%Z); [|lia].
    rewrite Zle_Qle.
    apply Qle_trans with q; [apply Qfloor_le|apply Qle_ceiling].
  - rewrite Qtrunc_nonneg by exact Hq. exact Hf.
Qed.

Lemma Qtrunc_lt (q : Q) (k : Z) :
  0 <= q -> q < inject_Z k -> (0 <= Qtrunc q < k)%Z.
Proof.
  intros H0 H. rewrite Qtrunc_nonneg by exact H0. split.
  - change 0%Z with (Qfloor 0). apply Qfloor_resp_le, H0.
  - apply Z.lt_nge. intros Hk. apply (Qlt_not_le _ _ H).
    apply Qle_trans with (inject_Z (Qfloor q)); [|apply Qfloor_le].
    rewrite <- Zle_Qle. exact Hk.
Qed.

Lemma Qtrunc_le_m1 (q : Q) : q <= -1 -> (Qtrunc q < 0)%Z.
Proof.
  intros H. rewrite Qtrunc_nonpos by lra.
  assert (Hc : (Qceiling q <= Qceiling (-1))%Z) by (apply Qceiling_resp_le, H).
  change (Qceiling (-1)) with (-1)%Z in Hc. lia.
Qed.

(** ** The occupancy queries *)

Section OccupancyFacts.

Variable g : Globals.
Hypothesis cellSize_pos : (0 < cellSize g)%Z.

Local Abbreviation cs := (inject_Z (cellSize g)).
Local Abbreviation extent := (inject_Z (gridSize g * cellSize g)).

Lemma cs_pos : 0 < cs.
Proof. change 0 with (inject_Z 0). rewrite <- Zlt_Qlt. exact cellSize_pos. Qed.

(** A coordinate at or beyond the last cell has an index of [gridSize] or more. *)
Lemma index_beyond (x : Q) : extent <= x -> (gridSize g <= Qtrunc (x / cs))%Z.
Proof.
  intros H. pose proof cs_pos as Hc. apply Qtrunc_ge.
  apply Qle_shift_div_l; [exact Hc|]. rewrite <- inject_Z_mult. exact H.
Qed.

(** A coordinate inside the cells has its index by floor division. *)
Lemma index_inside (x : Q) :
  0 <= x < extent ->
  (0 <= Qtrunc (x / cs) < gridSize g)%Z /\ Qtrunc (x / cs) = Qfloor (x / cs).
Proof.
  intros [H0 H1]. pose proof cs_pos as Hc.
  assert (Hq : 0 <= x / cs).
  { apply Qle_shift_div_l; [exact Hc|]. rewrite Qmult_0_l. exact H0. }
  split; [|apply Qtrunc_nonneg, Hq].
  apply Qtrunc_lt; [exact Hq|].
  apply Qlt_shift_div_r; [exact Hc|]. rewrite <- inject_Z_mult. exact H1.
Qed.

(** A coordinate a cell or more below 0 has a negative index. *)
Lemma index_below (x : Q) : x <= - cs -> (Qtrunc (x / cs) < 0)%Z.
Proof.
  intros H. pose proof cs_pos as Hc. apply Qtrunc_le_m1.
  apply Qle_shift_div_r; [exact Hc|]. lra.
Qed.

End OccupancyFacts.

(** ** Single precision *)

Lemma round_even_comp (q q' : Q) : q == q' -> round_even q = round_even q'.
Proof.
  intros E. unfold round_even. rewrite (Qfloor_comp _ _ E).
  assert (E' : q - inject_Z (Qfloor q') == q' - inject_Z (Qfloor q')) by (rewrite E; reflexivity).
  rewrite (Qcompare_comp _ _ E' _ _ (Qeq_refl (1 # 2))). reflexivity.
Qed.

Lemma round_even_Z (n : Z) : round_even (inject_Z n) = n.
Proof.
  unfold round_even. rewrite Qfloor_Z.
  assert (H : Qcompare (inject_Z n - inject_Z n) (1 # 2) = Lt).
  { rewrite <- Qlt_alt. lra. }
  rewrite H. reflexivity.
Qed.

Lemma round_even_bounds (q : Q) :
  inject_Z (round_even q) - (1 # 2) <= q /\ q <= inject_Z (round_even q) + (1 # 2).
Proof.
  unfold round_even.
  pose proof (Qfloor_le q) as Hf. pose proof (Qlt_floor q) as Hc.
  rewrite inject_Z_plus in Hc. change (inject_Z 1) with 1 in Hc.
  destruct (Qcompare (q - inject_Z (Qfloor q)) (1 # 2)) eqn:E.
  - compared E. destruct (Z.even (Qfloor q)).
    + lra.
    + rewrite inject_Z_plus. change (inject_Z 1) with 1. lra.
  - compared E. lra.
  - compared E. rewrite inject_Z_plus. change (inject_Z 1) with 1. lra.
Qed.

Lemma round_even_mono (q q' : Q) : q <= q' -> (round_even q <= round_even q')%Z.
Proof.
  intros H.
  pose proof (Qfloor_resp_le _ _ H) as Hf.
  assert (Hlo : forall x, (Qfloor x <= round_even x <= Qfloor x + 1)%Z).
  { intros x. unfold round_even.
    destruct (Qcompare _ _); [destruct (Z.even _)| |]; lia. }
  destruct (Z.eq_dec (Qfloor q) (Qfloor q')) as [Ef|Ef].
  - unfold round_even. rewrite <- Ef.
    destruct (Qcompare (q - inject_Z (Qfloor q)) (1 # 2)) eqn:E;
    destruct (Qcompare (q' - inject_Z (Qfloor q)) (1 # 2)) eqn:E';
      try (destruct (Z.even (Qfloor q))); try lia;
      compared E; compared E'; exfalso; lra.
  - pose proof (Hlo q). pose proof (Hlo q'). lia.
Qed.

Lemma round_even_near (q : Q) (n : Z) :
  inject_Z n - (1 # 2) < q -> q < inject_Z n + (1 # 2) -> round_even q = n.
Proof.
  intros H1 H2. destruct (round_even_bounds q) as [B1 B2].
  assert (L1 : inject_Z (round_even q) < inject_Z n + 1) by lra.
  assert (L2 : inject_Z n < inject_Z (round_even q) + 1) by lra.
  change 1 with (inject_Z 1) in L1, L2. rewrite <- inject_Z_plus in L1, L2.
  rewrite <- Zlt_Qlt in L1, L2. lia.
Qed.

Lemma pow2_pos (k : Z) : (0 <= k)%Z -> 0 < inject_Z (2 ^ k).
Proof.
  intros H. change 0 with (inject_Z 0). rewrite <- Zlt_Qlt.
  apply Z.pow_pos_nonneg; lia.
Qed.

Lemma floor_abs_nonneg (X : Q) : (0 <= Qfloor (Qabs X))%Z.
Proof.
  change 0%Z with (Qfloor 0). apply Qfloor_resp_le, Qabs_nonneg.
Qed.

Lemma spacing_nonneg (X : Q) : (0 <= spacing X)%Z.
Proof. unfold spacing. lia. Qed.

Lemma spacing_comp (X Y : Q) : X == Y -> spacing X = spacing Y.
Proof.
  intros E. unfold spacing.
  rewrite (Qfloor_comp (Qabs X) (Qabs Y)); [reflexivity|]. rewrite E. reflexivity.
Qed.

Lemma spacing_mono (X Y : Q) : Qabs X <= Qabs Y -> (spacing X <= spacing Y)%Z.
Proof.
  intros H. unfold spacing.
  pose proof (Z.log2_le_mono _ _ (Qfloor_resp_le _ _ H)). lia.
Qed.

(** [X] lies below the upper end of its range. *)
Lemma spacing_below (X : Q) : Qabs X < inject_Z (2 ^ (spacing X + 24)).
Proof.
  pose proof (floor_abs_nonneg X) as Hn.
  pose proof (Qlt_floor (Qabs X)) as Hlt.
  apply Qlt_le_trans with (inject_Z (Qfloor (Qabs X) + 1)); [exact Hlt|].
  rewrite <- Zle_Qle. unfold spacing.
  destruct (Z.eq_dec (Qfloor (Qabs X)) 0%Z) as [E|E].
  - rewrite E. simpl Z.log2.
    assert (H : (2 ^ 0 <= 2 ^ (Z.max 0 (0 - 23) + 24))%Z)
      by (apply Z.pow_le_mono_r; lia).
    simpl in H. lia.
  - destruct (Z.log2_spec (Qfloor (Qabs X))) as [_ Hhi]; [lia|].
    assert (H : (2 ^ Z.succ (Z.log2 (Qfloor (Qabs X))) <=
                 2 ^ (Z.max 0 (Z.log2 (Qfloor (Qabs X)) - 23) + 24))%Z)
      by (apply Z.pow_le_mono_r; lia).
    lia.
Qed.

(** Above the least range, [X] lies at or above the lower end of its range. *)
Lemma spacing_above (X : Q) :
  (0 < spacing X)%Z -> inject_Z (2 ^ (spacing X + 23)) <= Qabs X.
Proof.
  intros Hk. unfold spacing in *.
  pose proof (floor_abs_nonneg X) as Hn.
  assert (Hl : (23 < Z.log2 (Qfloor (Qabs X)))%Z) by lia.
  assert (Hpos : (0 < Qfloor (Qabs X))%Z).
  { destruct (Z.eq_dec (Qfloor (Qabs X)) 0%Z) as [E|E]; [|lia].
    rewrite E in Hl. simpl in Hl. lia. }
  destruct (Z.log2_spec _ Hpos) as [Hlo _].
  apply Qle_trans with (inject_Z (Qfloor (Qabs X))); [|apply Qfloor_le].
  rewrite <- Zle_Qle.
  replace (Z.max 0 (Z.log2 (Qfloor (Qabs X)) - 23) + 23)%Z
    with (Z.log2 (Qfloor (Qabs X))) by lia.
  exact Hlo.
Qed.

Lemma spacing_small (X : Q) : Qabs X < inject_Z (2 ^ 24) -> spacing X = 0%Z.
Proof.
  intros H. unfold spacing.
  pose proof (floor_abs_nonneg X) as Hn.
  assert (Hf : (Qfloor (Qabs X) < 2 ^ 24)%Z).
  { rewrite Zlt_Qlt. apply Qle_lt_trans with (Qabs X); [apply Qfloor_le|exact H]. }
  destruct (Z.eq_dec (Qfloor (Qabs X)) 0%Z) as [E|E]; [rewrite E; reflexivity|].
  assert (Hl : (Z.log2 (Qfloor (Qabs X)) < 24)%Z) by (apply Z.log2_lt_pow2; lia).
  lia.
Qed.

Lemma round_units_comp (X Y : Q) : X == Y -> round_units X = round_units Y.
Proof.
  intros E. unfold round_units. rewrite (spacing_comp X Y E).
  f_equal. apply round_even_comp. rewrite E. reflexivity.
Qed.

(** A multiple of the spacing around it is kept. *)
Lemma round_units_multiple (N m : Z) :
  N = (m * 2 ^ spacing (inject_Z N))%Z -> round_units (inject_Z N) = N.
Proof.
  intros E. unfold round_units.
  pose proof (pow2_pos _ (spacing_nonneg (inject_Z N))) as Hp.
  assert (Eq : inject_Z N / inject_Z (2 ^ spacing (inject_Z N)) == inject_Z m).
  { rewrite E at 1. rewrite inject_Z_mult. field. lra. }
  rewrite (round_even_comp _ _ Eq), round_even_Z. symmetry. exact E.
Qed.

Lemma Qabs_inject_Z (n : Z) : Qabs (inject_Z n) = inject_Z (Z.abs n).
Proof. reflexivity. Qed.

(** In units of [2^-149] a float is [m * 2^j] with [|m| <= 2^24]. *)
Lemma round_units_float (m j : Z) :
  (0 <= j)%Z -> (Z.abs m <= 2 ^ 24)%Z ->
  round_units (inject_Z (m * 2 ^ j)) = (m * 2 ^ j)%Z.
Proof.
  intros Hj Hm.
  set (N := (m * 2 ^ j)%Z).
  assert (H2j : (0 < 2 ^ j)%Z) by (apply Z.pow_pos_nonneg; lia).
  assert (Hs : (spacing (inject_Z N) <= j \/
                (spacing (inject_Z N) = j + 1 /\ Z.abs m = 2 ^ 24))%Z).
  { unfold spacing. rewrite Qabs_inject_Z, Qfloor_Z.
    destruct (Z.eq_dec m 0%Z) as [->|Hm0]; [left; unfold N; simpl; lia|].
    assert (Habs : Z.abs N = (Z.abs m * 2 ^ j)%Z)
      by (unfold N; rewrite Z.abs_mul, (Z.abs_eq (2 ^ j)); lia).
    rewrite Habs.
    destruct (Z.eq_dec (Z.abs m) (2 ^ 24)%Z) as [E|E].
    - right. split; [|exact E]. rewrite E, <- Z.pow_add_r by lia.
      rewrite Z.log2_pow2 by lia. lia.
    - left.
      assert (Hlt : (Z.abs m * 2 ^ j < 2 ^ (24 + j))%Z).
      { rewrite Z.pow_add_r by lia. apply Z.mul_lt_mono_pos_r; lia. }
      assert (Hl : (Z.log2 (Z.abs m * 2 ^ j) < 24 + j)%Z)
        by (apply Z.log2_lt_pow2; lia).
      lia. }
  destruct Hs as [Hs|[Hs Hm']].
  - apply (round_units_multiple N (m * 2 ^ (j - spacing (inject_Z N)))).
    pose proof (spacing_nonneg (inject_Z N)) as Hs0.
    rewrite <- Z.mul_assoc, <- Z.pow_add_r by lia.
    replace (j - spacing (inject_Z N) + spacing (inject_Z N))%Z with j by lia.
    reflexivity.
  - assert (Hsgn : (m = 2 ^ 24 \/ m = - 2 ^ 24)%Z) by lia.
    apply (round_units_multiple N (m / 2)%Z). rewrite Hs.
    rewrite Z.pow_add_r by lia. change (2 ^ 1)%Z with 2%Z. unfold N.
    destruct Hsgn as [-> | ->].
    + change (2 ^ 24 / 2)%Z with (2 ^ 23)%Z. change (2 ^ 24)%Z with (2 ^ 23 * 2)%Z. lia.
    + change (- 2 ^ 24 / 2)%Z with (- 2 ^ 23)%Z. change (2 ^ 24)%Z with (2 ^ 23 * 2)%Z. lia.
Qed.

Lemma round_even_le (q : Q) (c : Z) : q <= inject_Z c -> (round_even q <= c)%Z.
Proof. intros H. rewrite <- (round_even_Z c). apply round_even_mono, H. Qed.

Lemma round_even_ge (q : Q) (c : Z) : inject_Z c <= q -> (c <= round_even q)%Z.
Proof. intros H. rewrite <- (round_even_Z c). apply round_even_mono, H. Qed.

Lemma div_pow2_le (X Y : Q) (k : Z) :
  (0 <= k)%Z -> X <= Y -> X / inject_Z (2 ^ k) <= Y / inject_Z (2 ^ k).
Proof.
  intros Hk H. pose proof (pow2_pos k Hk) as Hp.
  apply Qle_shift_div_l; [exact Hp|].
  assert (E : X / inject_Z (2 ^ k) * inject_Z (2 ^ k) == X) by (field; lra).
  rewrite E. exact H.
Qed.

Lemma div_pow2_below (X : Q) (c k : Z) :
  (0 <= k)%Z -> X <= inject_Z (c * 2 ^ k) -> X / inject_Z (2 ^ k) <= inject_Z c.
Proof.
  intros Hk H. apply Qle_shift_div_r; [apply pow2_pos, Hk|].
  rewrite <- inject_Z_mult. exact H.
Qed.

Lemma div_pow2_above (X : Q) (c k : Z) :
  (0 <= k)%Z -> inject_Z (c * 2 ^ k) <= X -> inject_Z c <= X / inject_Z (2 ^ k).
Proof.
  intros Hk H. apply Qle_shift_div_l; [apply pow2_pos, Hk|].
  rewrite <- inject_Z_mult. exact H.
Qed.

(** The bounds of a rounded number, by the range of the number. *)
Lemma round_units_range (X : Q) :
  (- (2 ^ 24 * 2 ^ spacing X) <= round_units X <= 2 ^ 24 * 2 ^ spacing X)%Z /\
  ((0 < spacing X)%Z -> 0 <= X -> (2 ^ 23 * 2 ^ spacing X <= round_units X)%Z) /\
  ((0 < spacing X)%Z -> X <= 0 -> (round_units X <= - (2 ^ 23 * 2 ^ spacing X))%Z) /\
  (0 <= X -> (0 <= round_units X)%Z) /\
  (X <= 0 -> (round_units X <= 0)%Z).
Proof.
  pose proof (spacing_nonneg X) as Hk.
  assert (Hp : (0 < 2 ^ spacing X)%Z) by (apply Z.pow_pos_nonneg; lia).
  pose proof (spacing_below X) as Hb. rewrite Z.add_comm, Z.pow_add_r in Hb by lia.
  unfold round_units.
  assert (Habs : - Qabs X <= X <= Qabs X).
  { split; [|apply Qle_Qabs].
    rewrite <- (Qopp_involutive X) at 2. apply Qopp_le_compat.
    rewrite <- Qabs_opp. apply Qle_Qabs. }
  split; [|split; [|split; [|split]]].
  - assert (H1 : (round_even (X / inject_Z (2 ^ spacing X)) <= 2 ^ 24)%Z).
    { apply round_even_le, div_pow2_below; [exact Hk|]. lra. }
    assert (H2 : (- 2 ^ 24 <= round_even (X / inject_Z (2 ^ spacing X)))%Z).
    { apply round_even_ge, div_pow2_above; [exact Hk|].
      rewrite Z.mul_opp_l, inject_Z_opp. lra. }
    nia.
  - intros Hk0 HX. pose proof (spacing_above X Hk0) as Ha.
    rewrite Z.add_comm, Z.pow_add_r in Ha by lia.
    rewrite (Qabs_pos X HX) in Ha.
    assert (H1 : (2 ^ 23 <= round_even (X / inject_Z (2 ^ spacing X)))%Z)
      by (apply round_even_ge, div_pow2_above; [exact Hk|exact Ha]).
    nia.
  - intros Hk0 HX. pose proof (spacing_above X Hk0) as Ha.
    rewrite Z.add_comm, Z.pow_add_r in Ha by lia.
    rewrite (Qabs_neg X HX) in Ha.
    assert (H1 : (round_even (X / inject_Z (2 ^ spacing X)) <= - 2 ^ 23)%Z).
    { apply round_even_le, div_pow2_below; [exact Hk|].
      rewrite Z.mul_opp_l, inject_Z_opp. lra. }
    nia.
  - intros HX.
    assert (H1 : (0 <= round_even (X / inject_Z (2 ^ spacing X)))%Z).
    { apply round_even_ge, div_pow2_above; [exact Hk|]. simpl. exact HX. }
    nia.
  - intros HX.
    assert (H1 : (round_even (X / inject_Z (2 ^ spacing X)) <= 0)%Z).
    { apply round_even_le, div_pow2_below; [exact Hk|]. simpl. exact HX. }
    nia.
Qed.

Lemma round_units_same (X Y : Q) :
  spacing X = spacing Y -> X <= Y -> (round_units X <= round_units Y)%Z.
Proof.
  intros E H. unfold round_units. rewrite E.
  pose proof (spacing_nonneg Y) as Hk.
  apply Z.mul_le_mono_nonneg_r; [apply Z.pow_nonneg; lia|].
  apply round_even_mono, div_pow2_le; assumption.
Qed.

Lemma round_units_mono (X Y : Q) : X <= Y -> (round_units X <= round_units Y)%Z.
Proof.
  intros H.
  destruct (round_units_range X) as (RX & AX & BX & PX & NX).
  destruct (round_units_range Y) as (RY & AY & BY & PY & NY).
  pose proof (spacing_nonneg X) as HkX. pose proof (spacing_nonneg Y) as HkY.
  destruct (Qlt_le_dec X 0) as [HX|HX]; destruct (Qlt_le_dec Y 0) as [HY|HY].
  - (* both negative *)
    assert (Hs : (spacing Y <= spacing X)%Z).
    { apply spacing_mono. rewrite !Qabs_neg by lra. lra. }
    destruct (Z.eq_dec (spacing X) (spacing Y)) as [E|E];
      [apply round_units_same; assumption|].
    assert (Hpow : (2 ^ 24 * 2 ^ spacing Y <= 2 ^ 23 * 2 ^ spacing X)%Z).
    { change (2 ^ 24)%Z with (2 ^ 23 * 2 ^ 1)%Z.
      rewrite <- Z.mul_assoc, <- Z.pow_add_r by lia.
      apply Z.mul_le_mono_nonneg_l; [lia|]. apply Z.pow_le_mono_r; lia. }
    assert (H1 : (round_units X <= - (2 ^ 23 * 2 ^ spacing X))%Z)
      by (apply BX; [lia|lra]).
    lia.
  - assert (H1 : (round_units X <= 0)%Z) by (apply NX; lra).
    assert (H2 : (0 <= round_units Y)%Z) by (apply PY; lra).
    lia.
  - exfalso. lra.
  - assert (Hs : (spacing X <= spacing Y)%Z).
    { apply spacing_mono. rewrite !Qabs_pos by lra. lra. }
    destruct (Z.eq_dec (spacing X) (spacing Y)) as [E|E];
      [apply round_units_same; assumption|].
    assert (Hpow : (2 ^ 24 * 2 ^ spacing X <= 2 ^ 23 * 2 ^ spacing Y)%Z).
    { change (2 ^ 24)%Z with (2 ^ 23 * 2 ^ 1)%Z.
      rewrite <- Z.mul_assoc, <- Z.pow_add_r by lia.
      apply Z.mul_le_mono_nonneg_l; [lia|]. apply Z.pow_le_mono_r; lia. }
    assert (H1 : (2 ^ 23 * 2 ^ spacing Y <= round_units Y)%Z)
      by (apply AY; [lia|lra]).
    lia.
Qed.

(** ** The float operations *)

Lemma binary32_eq (x : Q) :
  binary32 x =
  Qred (inject_Z (round_units (x * inject_Z (2 ^ 149))) / inject_Z (2 ^ 149)).
Proof. reflexivity. Qed.

Lemma binary32_units (x : Q) :
  binary32 x == inject_Z (round_units (x * inject_Z (2 ^ 149))) / inject_Z (2 ^ 149).
Proof. rewrite binary32_eq. apply Qred_correct. Qed.

Lemma binary32_comp (x y : Q) : x == y -> binary32 x = binary32 y.
Proof.
  intros E. rewrite !binary32_eq.
  rewrite (round_units_comp (x * inject_Z (2 ^ 149)) (y * inject_Z (2 ^ 149)));
    [reflexivity|]. rewrite E. reflexivity.
Qed.

Lemma binary32_mono (x y : Q) : x <= y -> binary32 x <= binary32 y.
Proof.
  intros H. rewrite !binary32_units.
  pose proof (pow2_pos 149 ltac:(lia)) as Hp.
  apply div_pow2_le; [lia|]. rewrite <- Zle_Qle.
  apply round_units_mono. apply Qmult_le_compat_r; [exact H|lra].
Qed.

(** An integer of at most 24 bits is a float. *)
Lemma binary32_Z (n : Z) : (Z.abs n <= 2 ^ 24)%Z -> binary32 (inject_Z n) == inject_Z n.
Proof.
  intros Hn. rewrite binary32_units.
  pose proof (pow2_pos 149 ltac:(lia)) as Hp.
  assert (E : inject_Z n * inject_Z (2 ^ 149) == inject_Z (n * 2 ^ 149))
    by (rewrite inject_Z_mult; reflexivity).
  rewrite (round_units_comp _ _ E), round_units_float by (try lia; exact Hn).
  rewrite inject_Z_mult. field. lra.
Qed.


Lemma isObstacle_true_iff (g : Globals) (pt : Point) :
  isObstacle g pt = true <->
  isInsideGrid g pt = false \/ cellOf g pt ∈ obstacles g.
Proof.
  unfold isObstacle. destruct (isInsideGrid g pt); simpl.
  - rewrite bool_decide_eq_true. split; [tauto|]. intros [H|H]; [discriminate|exact H].
  - split; [auto|reflexivity].
Qed.

Lemma program_cellSize (g : Globals) :
  (0 < gridSize g <= canvasSize)%Z ->
  cellSize g = Z.quot canvasSize (gridSize g) ->
  (0 < cellSize g)%Z /\ (gridSize g * cellSize g <= canvasSize)%Z.
Proof.
  intros Hn ->. unfold canvasSize in *.
  rewrite Z.quot_div_nonneg by lia. split.
  - apply Z.div_str_pos. lia.
  - apply Z.mul_div_le. lia.
Qed.

(** C4, as amended.  With [cellSize = canvasSize / gridSize] on integers the
    cells cover the pixels from 0 to [gridSize * cellSize], which is at most
    [canvasSize].  A point with a coordinate at or beyond [gridSize * cellSize],
    or a cell or more below 0, is outside the grid and an obstacle.  A point
    with both coordinates from 0 up to [gridSize * cellSize] is inside the
    grid, its cell is given by floor division, and it is an obstacle exactly
    when that cell is in the obstacle set. *)
Theorem isObstacle_fail_closed (g : Globals) (pt : Point) :
  (0 < gridSize g <= canvasSize)%Z ->
  cellSize g = Z.quot canvasSize (gridSize g) ->
  inject_Z (gridSize g * cellSize g) <= inject_Z canvasSize /\
  (inject_Z (gridSize g * cellSize g) <= px pt \/
   inject_Z (gridSize g * cellSize g) <= py pt \/
   px pt <= - inject_Z (cellSize g) \/
   py pt <= - inject_Z (cellSize g) ->
   isInsideGrid g pt = false /\ isObstacle g pt = true) /\
  (0 <= px pt < inject_Z (gridSize g * cellSize g) ->
   0 <= py pt < inject_Z (gridSize g * cellSize g) ->
   isInsideGrid g pt = true /\
   cellOf g pt = (Qfloor (py pt / inject_Z (cellSize g)),
                  Qfloor (px pt / inject_Z (cellSize g))) /\
   (isObstacle g pt = true <-> cellOf g pt ∈ obstacles g)).
Proof.
  intros Hn Hcs. destruct (program_cellSize g Hn Hcs) as [Hpos Hext].
  split; [rewrite <- Zle_Qle; exact Hext|]. split.
  - intros Hout.
    assert (Hin : isInsideGrid g pt = false).
    { unfold isInsideGrid, cellOf.
      destruct Hout as [H|[H|[H|H]]].
      - apply (index_beyond g Hpos) in H.
        rewrite !andb_false_iff, !Z.ltb_ge, !Z.leb_gt. tauto.
      - apply (index_beyond g Hpos) in H.
        rewrite !andb_false_iff, !Z.ltb_ge, !Z.leb_gt. tauto.
      - apply (index_below g Hpos) in H.
        rewrite !andb_false_iff, !Z.ltb_ge, !Z.leb_gt. tauto.
      - apply (index_below g Hpos) in H.
        rewrite !andb_false_iff, !Z.ltb_ge, !Z.leb_gt. tauto. }
    split; [exact Hin|]. apply isObstacle_true_iff. left. exact Hin.
  - intros Hx Hy.
    destruct (index_inside g Hpos _ Hx) as [[Hc0 Hc1] Hcf].
    destruct (index_inside g Hpos _ Hy) as [[Hr0 Hr1] Hrf].
    assert (Hin : isInsideGrid g pt = true).
    { unfold isInsideGrid, cellOf.
      rewrite !andb_true_iff, !Z.leb_le, !Z.ltb_lt. tauto. }
    split; [exact Hin|]. split.
    + unfold cellOf. rewrite Hcf, Hrf. reflexivity.
    + rewrite isObstacle_true_iff, Hin. split; [|auto].
      intros [H|H]; [discriminate|exact H].
Qed.

(** C4, as amended, on a grid of 3 cells a side: the point (499, 10) is
    beyond the cells. *)
Lemma isObstacle_fail_closed_witness :
  isInsideGrid grid3 (mkPoint 499 10) = false /\
  isObstacle grid3 (mkPoint 499 10) = true.
Proof.
  assert (Hn : (0 < gridSize grid3 <= canvasSize)%Z) by (vm_compute; split; [reflexivity|discriminate]).
  assert (Hcs : cellSize grid3 = Z.quot canvasSize (gridSize grid3)) by reflexivity.
  destruct (isObstacle_fail_closed grid3 (mkPoint 499 10) Hn Hcs) as (_ & Hout & _).
  apply Hout. left. vm_compute. discriminate.
Defined.

(** C4 as stated fails twice.  The point (-1, 10) lies left of the canvas,
    and yet it is inside the grid and free: the conversion to [int] rounds
    -1/100 to the column 0.  On a grid of 3 cells a side the point (499, 10)
    lies on the canvas, in the column 3 by floor division, a cell that is not
    in the obstacle set, and yet it is an obstacle. *)
Lemma isObstacle_fail_closed_counterexample :
  (px (mkPoint (-1) 10) < 0 /\
   isInsideGrid open_grid (mkPoint (-1) 10) = true /\
   isObstacle open_grid (mkPoint (-1) 10) = false) /\
  (0 <= px (mkPoint 499 10) < inject_Z canvasSize /\
   0 <= py (mkPoint 499 10) < inject_Z canvasSize /\
   Qfloor (px (mkPoint 499 10) / inject_Z (cellSize grid3)) = 3%Z /\
   (cellOf grid3 (mkPoint 499 10) ∉ obstacles grid3) /\
   isObstacle grid3 (mkPoint 499 10) = true).
Proof.
  split.
  - split; [reflexivity|]. split; vm_compute; reflexivity.
  - split; [split; [discriminate|reflexivity]|].
    split; [split; [discriminate|reflexivity]|].
    split; [reflexivity|]. split; [|vm_compute; reflexivity].
    change (obstacles grid3) with (∅ : gset (Z * Z)). apply not_elem_of_empty.
Qed.

Lemma collisionFree_loop_false (g : Globals) (a b : Point) (ks : list Z) :
  collisionFree_loop g a b ks = false <->
  exists i, In i ks /\
    (isInsideGrid g (sample a b i) = false \/ cellOf g (sample a b i) ∈ obstacles g).
Proof.
  induction ks as [|k ks IH]; simpl.
  - split; [discriminate|]. intros (i & [] & _).
  - destruct (isInsideGrid g (sample a b k)) eqn:Hin; simpl.
    + destruct (isObstacle g (sample a b k)) eqn:Hob.
      * split; [|reflexivity]. intros _. exists k. split; [auto|].
        apply isObstacle_true_iff in Hob. exact Hob.
      * rewrite IH. split.
        -- intros (i & Hi & H). exists i. auto.
        -- intros (i & [->|Hi] & H); [|exists i; auto].
           exfalso. apply isObstacle_true_iff in H. congruence.
    + split; [|reflexivity]. intros _. exists k. auto.
Qed.

Lemma In_rounds (i : Z) : In i rounds <-> (1 <= i <= 10)%Z.
Proof. unfold rounds. simpl. lia. Qed.

(** C8, as amended.  [collisionFree (a, b)] tests ten points, the values of
    [a + (b - a) * (i / 10.0f)] in [float] for [i] from 1 to 10: the
    difference, the quotient, the product and the sum are each rounded.  It
    returns false exactly when one of these ten floats is outside the grid
    or in an obstacle cell. *)
Theorem collisionFree_false_iff (g : Globals) (a b : Point) :
  collisionFree g a b = false <->
  exists i : Z, (1 <= i <= 10)%Z /\
    (isInsideGrid g (padd a (pscale (psub b a) (fdiv (inject_Z i) 10))) = false \/
     cellOf g (padd a (pscale (psub b a) (fdiv (inject_Z i) 10))) ∈ obstacles g).
Proof.
  unfold collisionFree. rewrite collisionFree_loop_false.
  split; intros (i & Hi & H); exists i; (split; [apply In_rounds, Hi|exact H]).
Qed.

Lemma segment_point_free (g : Globals) (a b : Point) (ks : list Z) :
  forallb (fun i => isInsideGrid g (segment_point a b i) &&
                    negb (isObstacle g (segment_point a b i))) ks = true ->
  forall i, In i ks ->
    isInsideGrid g (segment_point a b i) = true /\
    cellOf g (segment_point a b i) ∉ obstacles g.
Proof.
  intros H i Hi. rewrite forallb_forall in H. specialize (H i Hi).
  apply andb_true_iff in H. destruct H as [Hin Hob]. split; [exact Hin|].
  apply negb_true_iff in Hob. intros Hc.
  assert (Ht : isObstacle g (segment_point a b i) = true)
    by (apply isObstacle_true_iff; right; exact Hc).
  congruence.
Qed.

(** C8 as stated fails: the ten points are not the equally spaced points of
    the segment.  With the cell (0, 0) an obstacle, from (220, 30) to
    (20, 130): each of the ten points [a + (b - a) * (i / 10)] is inside the
    grid and in a free cell, the sixth is (100, 90) in the cell (0, 1); the
    sixth float that the program computes is (99.9999924, 90) in the cell
    (0, 0), and [collisionFree] returns false. *)
Lemma collisionFree_false_iff_counterexample :
  (forall i, (1 <= i <= 10)%Z ->
     isInsideGrid corner_blocked
       (segment_point (mkPoint 220 30) (mkPoint 20 130) i) = true /\
     cellOf corner_blocked
       (segment_point (mkPoint 220 30) (mkPoint 20 130) i) ∉ obstacles corner_blocked) /\
  peq (segment_point (mkPoint 220 30) (mkPoint 20 130) 6) (mkPoint 100 90) /\
  sample (mkPoint 220 30) (mkPoint 20 130) 6 = mkPoint (13107199 # 131072) 90 /\
  cellOf corner_blocked (sample (mkPoint 220 30) (mkPoint 20 130) 6) ∈
    obstacles corner_blocked /\
  collisionFree corner_blocked (mkPoint 220 30) (mkPoint 20 130) = false.
Proof.
  split.
  - intros i Hi. apply (segment_point_free _ _ _ rounds).
    + vm_compute. reflexivity.
    + apply In_rounds, Hi.
  - split; [split; vm_compute; reflexivity|].
    split; [vm_compute; reflexivity|].
    split; [|vm_compute; reflexivity].
    apply (bool_decide_eq_true_1
             (cellOf corner_blocked (sample (mkPoint 220 30) (mkPoint 20 130) 6) ∈
                obstacles corner_blocked)).
    vm_compute. reflexivity.
Qed.




(** The parameters [i / 10.0f] are floats above 0, and the last is 1. *)
Lemma parameters (i : Z) :
  (1 <= i <= 10)%Z -> 0 < fdiv (inject_Z i) 10 <= 1.
Proof.
  intros Hi.
  assert (Hc : (i = 1 \/ i = 2 \/ i = 3 \/ i = 4 \/ i = 5 \/ i = 6 \/ i = 7 \/
               i = 8 \/ i = 9 \/ i = 10)%Z) by lia.
  destruct Hc as [->|[->|[->|[->|[->|[->|[->|[->|[->| ->]]]]]]]]];
    split; vm_compute; first [reflexivity | discriminate].
Qed.


(** ** The grid editor *)

Lemma keyPressed_s_configured (g : Globals) :
  configured (keyPressed Key_s g) =
  configured g || (negb (fst (start g) =? -1)%Z && negb (fst (goal g) =? -1)%Z).
Proof.
  unfold keyPressed.
  destruct (negb (fst (start g) =? -1)%Z && negb (fst (goal g) =? -1)%Z); simpl.
  - rewrite orb_true_r. reflexivity.
  - rewrite orb_false_r. reflexivity.
Qed.

Lemma handle_other_configured (g : Globals) (e : Event) :
  e <> Pressed Key_s -> configured (handle e g) = configured g.
Proof.
  intros He. destruct e as [ev x y|k]; simpl.
  - unfold mouseCallback.
    destruct ((gridSize g <=? Z.quot x (cellSize g))%Z ||
              (gridSize g <=? Z.quot y (cellSize g))%Z); [reflexivity|].
    destruct ev; [| |reflexivity].
    + destruct (bool_decide _ || bool_decide _); reflexivity.
    + destruct (selectingStart g); reflexivity.
  - unfold keyPressed. destruct k; try congruence.
    + destruct (undoStack g); reflexivity.
    + destruct (redoStack g); reflexivity.
Qed.

Lemma left_click_on_start_or_goal (g : Globals) (x y : Z) :
  start g = (Z.quot x (cellSize g), Z.quot y (cellSize g)) \/
  goal g = (Z.quot x (cellSize g), Z.quot y (cellSize g)) ->
  mouseCallback LBUTTONDOWN x y g = g.
Proof.
  intros H. unfold mouseCallback.
  destruct ((gridSize g <=? Z.quot x (cellSize g))%Z ||
            (gridSize g <=? Z.quot y (cellSize g))%Z); [reflexivity|].
  destruct H as [H|H].
  - rewrite (bool_decide_eq_true_2 _ H). reflexivity.
  - rewrite (bool_decide_eq_true_2 _ H), orb_true_r. reflexivity.
Qed.

Lemma main_planned (sqrtQ logQ : Q -> Q) (rand : nat -> Point)
    (n : Z) (evs : list Event) :
  planned (main sqrtQ logQ rand n evs) = configured (configure n evs).
Proof.
  unfold main. destruct (configured (configure n evs)); [|reflexivity].
  destruct (plan _ _ _ _); reflexivity.
Qed.

(** C3, as amended.  The key [s] sets [configured] exactly when a start and a
    goal have been picked ([start.x != -1] and [goal.x != -1]), no other
    event sets or clears it, and [main] plans as soon as it is set.  The one
    check on the cells is in the editor: a left click on the start or the
    goal cell toggles no obstacle. *)
Theorem setup_validation :
  (forall g,
     configured (keyPressed Key_s g) =
     configured g ||
       (negb (fst (start g) =? -1)%Z && negb (fst (goal g) =? -1)%Z)) /\
  (forall g e, e <> Pressed Key_s -> configured (handle e g) = configured g) /\
  (forall g x y,
     start g = (Z.quot x (cellSize g), Z.quot y (cellSize g)) \/
     goal g = (Z.quot x (cellSize g), Z.quot y (cellSize g)) ->
     mouseCallback LBUTTONDOWN x y g = g) /\
  (forall sqrtQ logQ rand n evs,
     planned (main sqrtQ logQ rand n evs) = configured (configure n evs)).
Proof.
  split; [exact keyPressed_s_configured|].
  split; [exact handle_other_configured|].
  split; [exact left_click_on_start_or_goal|exact main_planned].
Qed.

(** C3 as stated fails.  Two right clicks on one cell and the key [s] leave
    the start equal to the goal, and [main] plans; a right click on an
    obstacle cell makes it the start, and [main] plans. *)
Lemma setup_validation_counterexample :
  (start (configure 5 same_cell) = goal (configure 5 same_cell) /\
   configured (configure 5 same_cell) = true /\
   planned (main sqrt6 ln_series detour_rand 5 same_cell) = true) /\
  ((snd (start (configure 5 start_on_obstacle)),
    fst (start (configure 5 start_on_obstacle)))
     ∈ obstacles (configure 5 start_on_obstacle) /\
   configured (configure 5 start_on_obstacle) = true /\
   planned (main sqrt6 ln_series detour_rand 5 start_on_obstacle) = true).
Proof.
  split.
  - split; [vm_compute; reflexivity|].
    split; [vm_compute; reflexivity|]. vm_compute. reflexivity.
  - split; [|split; [vm_compute; reflexivity|
                     rewrite main_planned; vm_compute; reflexivity]].
    apply (bool_decide_eq_true_1
             ((snd (start (configure 5 start_on_obstacle)),
               fst (start (configure 5 start_on_obstacle)))
                ∈ obstacles (configure 5 start_on_obstacle))).
    vm_compute. reflexivity.
Qed.

(** ** The tree of the planner *)

Section PlannerFacts.

Variable g : Globals.
Variable sqrtQ : Q -> Q.
Variable logQ : Q -> Q.
Variable rand : nat -> Point.

Hypothesis sqrtQ_nonneg : forall x, 0 <= sqrtQ x.

Local Abbreviation dist' := (dist sqrtQ).
Local Abbreviation cf := (collisionFree g).
Local Abbreviation edge_ok' := (edge_ok g sqrtQ).
Local Abbreviation well_formed' := (well_formed g sqrtQ).

Lemma dist_nonneg (a b : Point) : 0 <= dist' a b.
Proof. unfold dist, norm. apply sqrtQ_nonneg. Qed.

(** *** The chain of the parents *)

Lemma chain_lt (tree : list Node) (j : nat) (l : list nat) :
  chain tree j l -> (j < length tree)%nat.
Proof. intros H. destruct H; assumption. Qed.

Lemma chain_head (tree : list Node) (j : nat) (l : list nat) :
  chain tree j l -> exists l', l = j :: l'.
Proof. intros H. destruct H; eauto. Qed.

Lemma chain_fun (tree : list Node) (j : nat) (l1 l2 : list nat) :
  chain tree j l1 -> chain tree j l2 -> l1 = l2.
Proof.
  intros H1. revert l2.
  induction H1 as [j Hj Hp|j p l Hj Hp Hc IH]; intros l2 H2; destruct H2 as [j Hj' Hp'|j p' l' Hj' Hp' Hc'].
  - reflexivity.
  - rewrite Hp in Hp'. lia.
  - rewrite Hp in Hp'. lia.
  - rewrite Hp in Hp'. apply Nat2Z.inj in Hp'. subst p'.
    f_equal. apply IH, Hc'.
Qed.

(** A node of a chain has a chain of its own, no longer than the first. *)
Lemma chain_suffix (tree : list Node) (j : nat) (l : list nat) (a : nat) :
  chain tree j l -> In a l ->
  exists l', chain tree a l' /\ (length l' <= length l)%nat.
Proof.
  induction 1 as [j Hj Hp|j p l Hj Hp Hc IH]; intros Ha.
  - destruct Ha as [<-|[]]. exists [j]. split; [constructor; assumption|lia].
  - destruct Ha as [<-|Ha].
    + exists (j :: l). split; [econstructor; eassumption|lia].
    + destruct (IH Ha) as (l' & Hl' & Hlen). exists l'. split; [exact Hl'|simpl; lia].
Qed.

Lemma chain_NoDup (tree : list Node) (j : nat) (l : list nat) :
  chain tree j l -> List.NoDup l.
Proof.
  induction 1 as [j Hj Hp|j p l Hj Hp Hc IH].
  - constructor; [intros []|constructor].
  - constructor; [|exact IH].
    intros Hin. destruct (chain_suffix _ _ _ _ Hc Hin) as (l' & Hl' & Hlen).
    assert (E : l' = j :: l).
    { eapply chain_fun; [exact Hl'|]. econstructor; eassumption. }
    subst l'. simpl in Hlen. lia.
Qed.

Lemma chain_below (tree : list Node) (j : nat) (l : list nat) (a : nat) :
  chain tree j l -> In a l -> (a < length tree)%nat.
Proof.
  intros Hc Ha. destruct (chain_suffix _ _ _ _ Hc Ha) as (l' & Hl' & _).
  eapply chain_lt, Hl'.
Qed.

(** A chain has no more nodes than the tree. *)
Lemma chain_length (tree : list Node) (j : nat) (l : list nat) :
  chain tree j l -> (length l <= length tree)%nat.
Proof.
  intros Hc.
  assert (H : (length l <= length (seq 0 (length tree)))%nat).
  { apply List.NoDup_incl_length; [eapply chain_NoDup, Hc|].
    intros a Ha. apply in_seq. pose proof (chain_below _ _ _ _ Hc Ha). lia. }
  rewrite List.length_seq in H. exact H.
Qed.

(** The walk of [smoothPath] follows the chain, and [fuel] for its nodes is
    enough. *)
Lemma walk_chain (tree : list Node) (j : nat) (l : list nat)
    (fuel : nat) (path : list Point) :
  chain tree j l -> (length l <= fuel)%nat ->
  walk fuel tree (Z.of_nat j) path =
  Some (path ++ map (fun a => point (tree !!! a)) l).
Proof.
  intros Hc. revert fuel path.
  induction Hc as [j Hj Hp|j p l Hj Hp Hc IH]; intros fuel path Hf.
  - destruct fuel as [|fuel]; [simpl in Hf; lia|].
    simpl. destruct (Z.eqb_spec (Z.of_nat j) (-1)) as [E|_]; [lia|].
    rewrite Nat2Z.id, Hp. destruct fuel; reflexivity.
  - destruct fuel as [|fuel]; [simpl in Hf; lia|].
    cbn [walk]. destruct (Z.eqb_spec (Z.of_nat j) (-1)) as [E|_]; [lia|].
    rewrite Nat2Z.id, Hp. rewrite IH by (simpl in Hf; lia).
    rewrite <- app_assoc. reflexivity.
Qed.

(** A chain that does not go through [j] is not touched when node [j] is
    overwritten. *)
Lemma chain_insert_avoid (tree : list Node) (j : nat) (nd : Node)
    (a : nat) (l : list nat) :
  chain tree a l -> ~ In j l -> chain (<[j := nd]> tree) a l.
Proof.
  induction 1 as [a Ha Hp|a p l Ha Hp Hc IH]; intros Hj.
  - apply chain_root.
    + rewrite length_insert. exact Ha.
    + rewrite list_lookup_total_insert_ne by (intros ->; apply Hj; left; reflexivity).
      exact Hp.
  - apply chain_step with p.
    + rewrite length_insert. exact Ha.
    + rewrite list_lookup_total_insert_ne by (intros ->; apply Hj; left; reflexivity).
      exact Hp.
    + apply IH. intros Hin. apply Hj. right. exact Hin.
Qed.

(** A chain stays a chain when a node is appended. *)
Lemma chain_app (tree : list Node) (nd : Node) (a : nat) (l : list nat) :
  chain tree a l -> chain (tree ++ [nd]) a l.
Proof.
  induction 1 as [a Ha Hp|a p l Ha Hp Hc IH].
  - apply chain_root.
    + rewrite length_app. lia.
    + rewrite lookup_total_app_l by exact Ha. exact Hp.
  - apply chain_step with p.
    + rewrite length_app. lia.
    + rewrite lookup_total_app_l by exact Ha. exact Hp.
    + exact IH.
Qed.

(** Down a chain the cost does not go up. *)
Lemma chain_cost (tree : list Node) (a b : nat) (l : list nat) :
  well_formed' tree -> chain tree a l -> In b l ->
  cost (tree !!! b) <= cost (tree !!! a).
Proof.
  intros Hwf. induction 1 as [a Ha Hp|a p l Ha Hp Hc IH]; intros Hb.
  - destruct Hb as [<-|[]]. apply Qle_refl.
  - destruct Hb as [<-|Hb]; [apply Qle_refl|].
    apply Qle_trans with (cost (tree !!! p)); [apply IH, Hb|].
    assert (H0 : (0 < a)%nat).
    { destruct a; [|lia]. destruct (wf_root _ _ _ Hwf) as (_ & Hr & _).
      rewrite Hr in Hp. lia. }
    destruct (wf_edge _ _ _ Hwf a (conj H0 Ha)) as (p' & Hp' & _ & Hcost & _).
    rewrite Hp in Hp'. apply Nat2Z.inj in Hp'. subst p'.
    pose proof (dist_nonneg (point (tree !!! p)) (point (tree !!! a))). lra.
Qed.

(** When node [j] is overwritten and has a chain, every node has one. *)
Lemma chain_insert_through (tree : list Node) (j : nat) (nd : Node)
    (lj : list nat) (a : nat) (l : list nat) :
  chain (<[j := nd]> tree) j lj -> chain tree a l ->
  exists l', chain (<[j := nd]> tree) a l'.
Proof.
  intros Hj. induction 1 as [a Ha Hp|a p l Ha Hp Hc IH].
  - destruct (Nat.eq_dec a j) as [->|Hne]; [eauto|].
    exists [a]. apply chain_root.
    + rewrite length_insert. exact Ha.
    + rewrite list_lookup_total_insert_ne by congruence. exact Hp.
  - destruct (Nat.eq_dec a j) as [->|Hne]; [eauto|].
    destruct IH as (l' & Hl'). exists (a :: l'). apply chain_step with p.
    + rewrite length_insert. exact Ha.
    + rewrite list_lookup_total_insert_ne by congruence. exact Hp.
    + exact Hl'.
Qed.

(** *** The loops of a round *)

Lemma nearest_loop_range (k j : nat) (tree : list Node) (randPt : Point)
    (n0 : Z) (d0 : Q) (n : Z) (d : Q) :
  nearest_loop sqrtQ k j tree randPt n0 d0 = (n, d) ->
  n = n0 \/ (Z.of_nat j <= n < Z.of_nat (j + k))%Z.
Proof.
  revert j n0 d0. induction k as [|k IH]; intros j n0 d0; simpl.
  - intros [= <- <-]. left. reflexivity.
  - destruct (Qltb _ d0); intros H; apply IH in H; lia.
Qed.

Lemma parent_loop_hangs (k j : nat) (tree : list Node) (newPt : Point)
    (radius : Q) (bp0 : Z) (bc0 : Q) (bp : Z) (bc : Q) :
  (j + k <= length tree)%nat ->
  hangs_on g sqrtQ tree newPt bp0 bc0 ->
  parent_loop g sqrtQ k j tree newPt radius bp0 bc0 = (bp, bc) ->
  hangs_on g sqrtQ tree newPt bp bc.
Proof.
  revert j bp0 bc0. induction k as [|k IH]; intros j bp0 bc0 Hk H0; simpl.
  - intros [= <- <-]. exact H0.
  - destruct (Qltb _ radius && cf _ newPt) eqn:Hnear;
      [|apply IH; [lia|exact H0]].
    destruct (Qltb _ bc0); [|apply IH; [lia|exact H0]].
    apply IH; [lia|].
    apply andb_true_iff in Hnear. destruct Hnear as [_ Hcf].
    exists j. split; [reflexivity|]. split; [lia|]. split; [reflexivity|exact Hcf].
Qed.

(** The node that a round appends hangs on a node of the tree. *)
Lemma candidate_hangs (i : nat) (tree : list Node) (newPt : Point)
    (bp : Z) (bc r : Q) :
  candidate g sqrtQ logQ rand i tree = Chosen newPt bp bc r ->
  hangs_on g sqrtQ tree newPt bp bc /\ r = neighbourhood sqrtQ logQ (length tree).
Proof.
  unfold candidate.
  destruct (negb (isInsideGrid g _) || isObstacle g _); [discriminate|].
  destruct (nearest_loop _ _ _ _ _ _ _) as [nearest bestDist] eqn:Hn.
  destruct (Z.eqb_spec nearest (-1)) as [|Hne]; [discriminate|].
  destruct (Qeq_bool _ 0); [discriminate|].
  destruct (negb (isInsideGrid g _) || negb (cf _ _)) eqn:Hfree; [discriminate|].
  destruct (parent_loop _ _ _ _ _ _ _ _ _) as [bp' bc'] eqn:Hp.
  intros [= <- <- <- <-]. split; [|reflexivity].
  apply nearest_loop_range in Hn. simpl in Hn.
  apply orb_false_iff in Hfree. destruct Hfree as [_ Hcf].
  apply negb_false_iff in Hcf.
  eapply parent_loop_hangs; [|  |exact Hp]; [simpl; lia|].
  exists (Z.to_nat nearest). split; [lia|]. split; [lia|].
  split; [reflexivity|exact Hcf].
Qed.

(** *** The tree stays well formed *)

Lemma well_formed_initial : well_formed' (initial_tree g).
Proof.
  unfold initial_tree. split; simpl.
  - split; [lia|]. split; [reflexivity|apply Qeq_refl].
  - intros j Hj. lia.
  - intros j Hj. assert (j = 0)%nat as -> by lia. simpl. apply Qle_refl.
  - intros j Hj. assert (j = 0)%nat as -> by lia.
    exists [0%nat]. apply chain_root; [simpl; lia|reflexivity].
Qed.

Lemma well_formed_app (tree : list Node) (newPt : Point) (bp : Z) (bc : Q) :
  well_formed' tree -> hangs_on g sqrtQ tree newPt bp bc ->
  well_formed' (tree ++ [mkNode newPt bp bc]).
Proof.
  intros Hwf (p & -> & Hp & -> & Hcf).
  destruct (wf_root _ _ _ Hwf) as (Hlen & Hroot & Hc0).
  assert (Hlast : forall nd : Node, (tree ++ [nd]) !!! length tree = nd).
  { intros nd. rewrite lookup_total_app_r by lia.
    rewrite Nat.sub_diag. reflexivity. }
  split.
  - rewrite length_app, lookup_total_app_l by lia. simpl.
    split; [lia|]. split; assumption.
  - intros j Hj. rewrite length_app in Hj. simpl in Hj.
    destruct (Nat.eq_dec j (length tree)) as [->|Hne].
    + exists p. rewrite Hlast, lookup_total_app_l by lia. simpl.
      split; [reflexivity|]. split; [rewrite length_app; lia|].
      split; [apply Qle_refl|exact Hcf].
    + destruct (wf_edge _ _ _ Hwf j) as (q & Hq & Hqlt & Hcost & Hfree); [lia|].
      exists q. rewrite !lookup_total_app_l by lia.
      split; [exact Hq|]. split; [rewrite length_app; lia|]. split; assumption.
  - intros j Hj. rewrite length_app in Hj. simpl in Hj.
    destruct (Nat.eq_dec j (length tree)) as [->|Hne].
    + rewrite Hlast. simpl.
      pose proof (wf_cost _ _ _ Hwf p Hp).
      pose proof (dist_nonneg (point (tree !!! p)) newPt). lra.
    + rewrite lookup_total_app_l by lia. apply (wf_cost _ _ _ Hwf). lia.
  - intros j Hj. rewrite length_app in Hj. simpl in Hj.
    destruct (Nat.eq_dec j (length tree)) as [->|Hne].
    + destruct (wf_chain _ _ _ Hwf p Hp) as (l & Hl).
      exists (length tree :: l). apply chain_step with p.
      * rewrite length_app. simpl. lia.
      * rewrite Hlast. reflexivity.
      * apply chain_app, Hl.
    + destruct (wf_chain _ _ _ Hwf j) as (l & Hl); [lia|].
      exists l. apply chain_app, Hl.
Qed.

(** What [rewire_at] does: nothing, or node [j] is hung on the new node at a
    cost that is strictly less. *)
Lemma rewire_at_cases (j : nat) (tree : list Node) (newIdx : nat)
    (newPt : Point) (bestCost radius : Q) :
  rewire_at g sqrtQ j tree newIdx newPt bestCost radius = tree \/
  (j <> newIdx /\
   cf newPt (point (tree !!! j)) = true /\
   bestCost + dist' newPt (point (tree !!! j)) < cost (tree !!! j) /\
   rewire_at g sqrtQ j tree newIdx newPt bestCost radius =
   <[j := mkNode (point (tree !!! j)) (Z.of_nat newIdx)
            (bestCost + dist' newPt (point (tree !!! j)))]> tree).
Proof.
  unfold rewire_at. destruct (Nat.eqb_spec j newIdx) as [|Hne]; [left; reflexivity|].
  destruct (Qltb _ radius && cf newPt _) eqn:Hnear; [|left; reflexivity].
  destruct (Qltb _ (cost (tree !!! j))) eqn:Hless; [|left; reflexivity].
  right. apply andb_true_iff in Hnear. destruct Hnear as [_ Hcf].
  apply Qltb_lt in Hless. auto.
Qed.

Lemma rewire_at_rewiring (j : nat) (tree : list Node) (newIdx : nat)
    (newPt : Point) (bestCost radius : Q) :
  rewiring g sqrtQ tree newIdx newPt bestCost ->
  rewiring g sqrtQ (rewire_at g sqrtQ j tree newIdx newPt bestCost radius)
    newIdx newPt bestCost.
Proof.
  intros Hrw.
  destruct (rewire_at_cases j tree newIdx newPt bestCost radius)
    as [->|(Hne & Hcf & Hless & ->)]; [exact Hrw|].
  destruct (Nat.lt_ge_cases j (length tree)) as [Hj|Hj];
    [|rewrite list_insert_ge by exact Hj; exact Hrw].
  destruct Hrw as (Hwf & Hlen & Hpt & Hcost).
  destruct (wf_root _ _ _ Hwf) as (_ & Hroot & Hc0).
  pose proof (dist_nonneg newPt (point (tree !!! j))) as Hd.
  assert (Hbc : 0 <= bestCost).
  { rewrite <- Hcost. apply (wf_cost _ _ _ Hwf). lia. }
  assert (Hj0 : j <> 0%nat).
  { intros ->. lra. }
  set (nd := mkNode (point (tree !!! j)) (Z.of_nat newIdx)
               (bestCost + dist' newPt (point (tree !!! j)))).
  assert (Hsame : forall k, k <> j -> <[j := nd]> tree !!! k = tree !!! k).
  { intros k Hk. apply list_lookup_total_insert_ne. congruence. }
  assert (Hnew : <[j := nd]> tree !!! j = nd).
  { apply list_lookup_total_insert_eq. exact Hj. }
  destruct (wf_chain _ _ _ Hwf newIdx) as (lm & Hlm); [lia|].
  assert (Havoid : ~ In j lm).
  { intros Hin. pose proof (chain_cost _ _ _ _ Hwf Hlm Hin) as Hle.
    rewrite Hcost in Hle. lra. }
  assert (Hchj : chain (<[j := nd]> tree) j (j :: lm)).
  { apply chain_step with newIdx.
    - rewrite length_insert. exact Hj.
    - rewrite Hnew. reflexivity.
    - apply chain_insert_avoid; assumption. }
  split; [|rewrite length_insert, !Hsame by congruence; auto].
  split.
  - rewrite length_insert, Hsame by congruence. split; [lia|]. split; assumption.
  - intros k Hk. rewrite length_insert in Hk.
    destruct (Nat.eq_dec k j) as [->|Hkj].
    + exists newIdx. rewrite Hnew, Hsame by congruence. simpl.
      split; [reflexivity|]. split; [rewrite length_insert; lia|].
      rewrite Hpt, Hcost. split; [apply Qle_refl|exact Hcf].
    + destruct (wf_edge _ _ _ Hwf k Hk) as (p & Hp & Hplt & Hpc & Hpf).
      exists p. rewrite (Hsame k) by exact Hkj.
      split; [exact Hp|]. split; [rewrite length_insert; exact Hplt|].
      destruct (Nat.eq_dec p j) as [->|Hpj].
      * rewrite Hnew. simpl. split; [lra|exact Hpf].
      * rewrite (Hsame p) by exact Hpj. split; assumption.
  - intros k Hk. rewrite length_insert in Hk.
    destruct (Nat.eq_dec k j) as [->|Hkj].
    + rewrite Hnew. simpl. lra.
    + rewrite Hsame by exact Hkj. apply (wf_cost _ _ _ Hwf), Hk.
  - intros k Hk. rewrite length_insert in Hk.
    destruct (wf_chain _ _ _ Hwf k Hk) as (l & Hl).
    eapply chain_insert_through; eassumption.
Qed.

Lemma rewire_loop_rewiring (k j : nat) (tree : list Node) (newIdx : nat)
    (newPt : Point) (bestCost radius : Q) :
  rewiring g sqrtQ tree newIdx newPt bestCost ->
  rewiring g sqrtQ (rewire_loop g sqrtQ k j tree newIdx newPt bestCost radius)
    newIdx newPt bestCost.
Proof.
  revert j tree. induction k as [|k IH]; intros j tree Hrw; simpl.
  - exact Hrw.
  - apply IH, rewire_at_rewiring, Hrw.
Qed.

(** The tree with the new node appended is ready for the rewiring. *)
Lemma rewiring_app (tree : list Node) (newPt : Point) (bp : Z) (bc : Q) :
  well_formed' tree -> hangs_on g sqrtQ tree newPt bp bc ->
  rewiring g sqrtQ (tree ++ [mkNode newPt bp bc]) (length tree) newPt bc.
Proof.
  intros Hwf Hh. split; [apply well_formed_app; assumption|].
  rewrite length_app, lookup_total_app_r, Nat.sub_diag by lia. simpl.
  split; [lia|]. split; reflexivity.
Qed.

Lemma iteration_well_formed (i : nat) (tree tree' : list Node)
    (newIdx : nat) (newPt : Point) :
  well_formed' tree ->
  iteration g sqrtQ logQ rand i tree = Inserted tree' newIdx newPt ->
  well_formed' tree' /\ newIdx = length tree /\
  length tree' = S (length tree) /\ point (tree' !!! newIdx) = newPt.
Proof.
  intros Hwf. unfold iteration.
  destruct (candidate _ _ _ _ _ _) as [| |pt bp bc r] eqn:Hc; try discriminate.
  intros [= <- <- <-].
  apply candidate_hangs in Hc. destruct Hc as [Hh _].
  pose proof (rewiring_app _ _ _ _ Hwf Hh) as Hrw.
  apply (rewire_loop_rewiring (length (tree ++ [mkNode pt bp bc])) 0
           _ _ _ _ r) in Hrw.
  destruct Hrw as (Hwf' & Hlen & Hpt & _). auto.
Qed.

Lemma rrt_loop_well_formed (n i : nat) (tree : list Node) :
  well_formed' tree ->
  match rrt_loop g sqrtQ logQ rand n i tree with
  | PathFound tree' goalIdx => well_formed' tree' /\ (goalIdx < length tree')%nat
  | Exhausted tree' => well_formed' tree'
  | Aborted => True
  end.
Proof.
  revert i tree. induction n as [|n IH]; intros i tree Hwf; simpl.
  - exact Hwf.
  - destruct (iteration _ _ _ _ _ _) as [|tree' newIdx newPt|] eqn:Hit.
    + apply IH, Hwf.
    + destruct (iteration_well_formed _ _ _ _ _ Hwf Hit) as (Hwf' & -> & Hlen & _).
      destruct (captured _ _ _); [|apply IH, Hwf'].
      split; [exact Hwf'|lia].
    + exact I.
Qed.

Lemma tree_at_well_formed (n : nat) (tree : list Node) :
  tree_at g sqrtQ logQ rand n tree -> well_formed' tree.
Proof.
  unfold tree_at. intros H.
  pose proof (rrt_loop_well_formed n 0 _ well_formed_initial) as Hwf.
  rewrite H in Hwf. exact Hwf.
Qed.

(** Every tree that the main loop goes through is well formed. *)
Lemma tree_state_well_formed (tree : list Node) :
  tree_state g sqrtQ logQ rand tree -> well_formed' tree.
Proof.
  intros [n t Hn Hat|n t newPt bp bc r k Hn Hat Hc Hk].
  - eapply tree_at_well_formed, Hat.
  - apply candidate_hangs in Hc. destruct Hc as [Hh _].
    apply tree_at_well_formed in Hat.
    apply (rewire_loop_rewiring k 0 _ _ _ _ r (rewiring_app _ _ _ _ Hat Hh)).
Qed.

(** C2.  At every point of the main loop, and from every node of the tree,
    the walk up the parents comes to the root's [-1] within as many steps as
    the tree has nodes; and [rewire_at] changes the tree only when the new
    cost is strictly less than the cost of the node. *)
Theorem parents_reach_root (tree : list Node) (j : nat) :
  tree_state g sqrtQ logQ rand tree -> (j < length tree)%nat ->
  (exists path,
     walk (length tree) tree (Z.of_nat j) [] = Some path /\
     (length path <= length tree)%nat) /\
  (forall k newIdx newPt bestCost radius,
     rewire_at g sqrtQ k tree newIdx newPt bestCost radius <> tree ->
     bestCost + dist' newPt (point (tree !!! k)) < cost (tree !!! k)).
Proof.
  intros Hst Hj. split.
  - apply tree_state_well_formed in Hst.
    destruct (wf_chain _ _ _ Hst j Hj) as (l & Hl).
    pose proof (chain_length _ _ _ Hl) as Hlen.
    exists (map (fun a => point (tree !!! a)) l). split.
    + rewrite (walk_chain _ _ _ _ [] Hl Hlen). reflexivity.
    + rewrite length_map. exact Hlen.
  - intros k newIdx newPt bestCost radius Hne.
    destruct (rewire_at_cases k tree newIdx newPt bestCost radius)
      as [E|(_ & _ & Hless & _)]; [contradiction|exact Hless].
Qed.

(** *** What a round changes *)

Lemma rewire_at_length (j : nat) (tree : list Node) (newIdx : nat)
    (newPt : Point) (bestCost radius : Q) :
  length (rewire_at g sqrtQ j tree newIdx newPt bestCost radius) = length tree.
Proof.
  destruct (rewire_at_cases j tree newIdx newPt bestCost radius)
    as [->|(_ & _ & _ & ->)]; [reflexivity|apply length_insert].
Qed.

Lemma rewire_at_other (j : nat) (tree : list Node) (newIdx : nat)
    (newPt : Point) (bestCost radius : Q) (a : nat) :
  a <> j ->
  rewire_at g sqrtQ j tree newIdx newPt bestCost radius !!! a = tree !!! a.
Proof.
  intros Ha.
  destruct (rewire_at_cases j tree newIdx newPt bestCost radius)
    as [->|(_ & _ & _ & ->)]; [reflexivity|].
  apply list_lookup_total_insert_ne. congruence.
Qed.

(** Node [a] after [rewire_at] at [a] depends on node [a] alone. *)
Lemma rewire_at_self (a : nat) (t1 t2 : list Node) (newIdx : nat)
    (newPt : Point) (bestCost radius : Q) :
  t1 !!! a = t2 !!! a -> length t1 = length t2 ->
  rewire_at g sqrtQ a t1 newIdx newPt bestCost radius !!! a =
  rewire_at g sqrtQ a t2 newIdx newPt bestCost radius !!! a.
Proof.
  intros E Hlen. unfold rewire_at. rewrite E.
  destruct (a =? newIdx)%nat; [exact E|].
  destruct (Qltb _ radius && cf newPt _); [|exact E].
  destruct (Qltb _ (cost (t2 !!! a))); [|exact E].
  destruct (Nat.lt_ge_cases a (length t1)) as [Ha|Ha].
  - rewrite !list_lookup_total_insert_eq by lia. reflexivity.
  - rewrite !list_insert_ge by lia. exact E.
Qed.

(** The rewiring comes to [rewire_at] node by node. *)
Lemma rewire_loop_lookup (k j0 : nat) (tree : list Node) (newIdx : nat)
    (newPt : Point) (bestCost radius : Q) (a : nat) :
  rewire_loop g sqrtQ k j0 tree newIdx newPt bestCost radius !!! a =
  if bool_decide (j0 <= a < j0 + k)%nat
  then rewire_at g sqrtQ a tree newIdx newPt bestCost radius !!! a
  else tree !!! a.
Proof.
  revert j0 tree. induction k as [|k IH]; intros j0 tree; simpl.
  - rewrite bool_decide_eq_false_2 by lia. reflexivity.
  - rewrite IH.
    destruct (Nat.eq_dec a j0) as [->|Hne].
    + rewrite bool_decide_eq_false_2 by lia.
      rewrite bool_decide_eq_true_2 by lia. reflexivity.
    + destruct (bool_decide (S j0 <= a < S j0 + k)%nat) eqn:Hin.
      * apply bool_decide_eq_true_1 in Hin.
        rewrite bool_decide_eq_true_2 by lia.
        apply rewire_at_self; [apply rewire_at_other, Hne|apply rewire_at_length].
      * apply bool_decide_eq_false_1 in Hin.
        rewrite bool_decide_eq_false_2 by lia. apply rewire_at_other, Hne.
Qed.



End PlannerFacts.

(** ** The main loop *)

Lemma handle_cellSize (e : Event) (g : Globals) :
  gridSize (handle e g) = gridSize g /\ cellSize (handle e g) = cellSize g.
Proof.
  destruct e as [ev x y|k]; simpl.
  - unfold mouseCallback.
    destruct ((gridSize g <=? Z.quot x (cellSize g))%Z ||
              (gridSize g <=? Z.quot y (cellSize g))%Z); [auto|].
    destruct ev; [| |auto].
    + destruct (bool_decide _ || bool_decide _); auto.
    + destruct (selectingStart g); auto.
  - unfold keyPressed. destruct k; [| | |auto].
    + destruct (undoStack g); auto.
    + destruct (redoStack g); auto.
    + destruct (negb _ && negb _); auto.
Qed.

Lemma setup_cellSize (evs : list Event) (g : Globals) :
  gridSize (setup evs g) = gridSize g /\ cellSize (setup evs g) = cellSize g.
Proof.
  revert g. induction evs as [|e evs IH]; intros g; simpl; [auto|].
  destruct (configured g); [auto|].
  destruct (IH (handle e g)) as [-> ->]. apply handle_cellSize.
Qed.

(** The float [cellSize * 0.6f] for the cell sizes [canvasSize / n] of the
    program. *)
Lemma capture_radius_near (g : Globals) (n : Z) :
  (1 <= n <= canvasSize)%Z -> cellSize g = Z.quot canvasSize n ->
  inject_Z (cellSize g) * (6 # 10) <= capture_radius g /\
  capture_radius g <= inject_Z (cellSize g) * (6 # 10) * (1 + (1 # 8388608)).
Proof.
  intros Hn Hcs. unfold capture_radius. rewrite Hcs.
  assert (H : forallb
            (fun k : Z =>
               Qle_bool (inject_Z (Z.quot canvasSize k) * (6 # 10))
                 (fmul (binary32 (inject_Z (Z.quot canvasSize k))) (binary32 (6 # 10))) &&
               Qle_bool
                 (fmul (binary32 (inject_Z (Z.quot canvasSize k))) (binary32 (6 # 10)))
                 (inject_Z (Z.quot canvasSize k) * (6 # 10) * (1 + (1 # 8388608))))
            (map Z.of_nat (seq 1 500)) = true) by (vm_compute; reflexivity).
  rewrite forallb_forall in H. specialize (H n).
  assert (Hin : In n (map Z.of_nat (seq 1 500))).
  { apply in_map_iff. exists (Z.to_nat n). unfold canvasSize in Hn.
    split; [lia|]. apply in_seq. lia. }
  apply H in Hin. apply andb_true_iff in Hin. destruct Hin as [H1 H2].
  apply Qle_bool_iff in H1, H2. split; assumption.
Qed.

Section LoopFacts.

Variable g : Globals.
Variable sqrtQ : Q -> Q.
Variable logQ : Q -> Q.
Variable rand : nat -> Point.

Local Abbreviation rrt_loop' := (rrt_loop g sqrtQ logQ rand).
Local Abbreviation iteration' := (iteration g sqrtQ logQ rand).
Local Abbreviation tree_at' := (tree_at g sqrtQ logQ rand).
Local Abbreviation captured' := (captured g sqrtQ).

(** [n + m] rounds are [n] rounds and, when the goal is not reached in them,
    [m] more. *)
Lemma rrt_loop_add (n m i : nat) (tree : list Node) :
  rrt_loop' (n + m) i tree =
  match rrt_loop' n i tree with
  | Exhausted tree' => rrt_loop' m (i + n) tree'
  | e => e
  end.
Proof.
  revert i tree. induction n as [|n IH]; intros i tree; simpl.
  - rewrite Nat.add_0_r. reflexivity.
  - destruct (iteration' i tree) as [|tree' newIdx newPt|].
    + rewrite IH. replace (S i + n)%nat with (i + S n)%nat by lia. reflexivity.
    + destruct (captured' newPt); [reflexivity|].
      rewrite IH. replace (S i + n)%nat with (i + S n)%nat by lia. reflexivity.
    + reflexivity.
Qed.

Lemma rrt_loop_found (m : nat) (tree : list Node) (idx : nat) :
  rrt_loop' m 0 (initial_tree g) = PathFound tree idx ->
  exists n t pt,
    (n < m)%nat /\ tree_at' n t /\
    iteration' n t = Inserted tree idx pt /\ captured' pt = true.
Proof.
  induction m as [|m IH]; [discriminate|].
  replace (S m) with (m + 1)%nat by lia. rewrite rrt_loop_add.
  destruct (rrt_loop' m 0 (initial_tree g)) as [t' i'|t|] eqn:Hm.
  - intros [= <- <-]. destruct (IH eq_refl) as (n & t & pt & Hn & H).
    exists n, t, pt. split; [lia|exact H].
  - simpl. destruct (iteration' m t) as [|t' i' pt|] eqn:Hit; try discriminate.
    destruct (captured' pt) eqn:Hcap; [|discriminate].
    intros [= <- <-]. exists m, t, pt. split; [lia|]. auto.
  - discriminate.
Qed.

Lemma rrt_loop_finds (m n : nat) (t tree : list Node) (idx : nat) (pt : Point) :
  (n < m)%nat -> tree_at' n t ->
  iteration' n t = Inserted tree idx pt -> captured' pt = true ->
  rrt_loop' m 0 (initial_tree g) = PathFound tree idx.
Proof.
  intros Hn Hat Hit Hcap.
  replace m with (n + S (m - S n))%nat by lia.
  rewrite rrt_loop_add, Hat. simpl. rewrite Hit, Hcap. reflexivity.
Qed.

Lemma rrt_loop_exhausted (m : nat) (tree : list Node) (n : nat) :
  rrt_loop' m 0 (initial_tree g) = Exhausted tree -> (n < m)%nat ->
  exists t, tree_at' n t /\ goes_on g sqrtQ (iteration' n t).
Proof.
  intros Hm Hn. replace m with (n + S (m - S n))%nat in Hm by lia.
  rewrite rrt_loop_add in Hm.
  destruct (rrt_loop' n 0 (initial_tree g)) as [| t |] eqn:Hat; try discriminate.
  exists t. split; [exact Hat|]. simpl in Hm.
  destruct (iteration' n t) as [|t' i' pt|]; simpl; [exact I| |discriminate].
  destruct (captured' pt); [discriminate|reflexivity].
Qed.

Lemma rrt_loop_goes_on (m : nat) :
  (forall n t, (n < m)%nat -> tree_at' n t -> goes_on g sqrtQ (iteration' n t)) ->
  exists tree, rrt_loop' m 0 (initial_tree g) = Exhausted tree.
Proof.
  induction m as [|m IH]; intros Hall; [exists (initial_tree g); reflexivity|].
  destruct IH as (t & Ht); [intros n t' Hn; apply Hall; lia|].
  replace (S m) with (m + 1)%nat by lia. rewrite rrt_loop_add, Ht. simpl.
  pose proof (Hall m t (Nat.lt_succ_diag_r m) Ht) as Hgo.
  destruct (iteration' m t) as [|t' i' pt|]; simpl in Hgo;
    [eauto| |contradiction].
  rewrite Hgo. eauto.
Qed.

Lemma plan_eq :
  plan g sqrtQ logQ rand = rrt_loop' MAX_ITER 0 (initial_tree g).
Proof. unfold plan. reflexivity. Qed.

(** C5, as amended.  The cell size is [canvasSize / gridSize] on integers.
    The capture radius is the float product [cellSize * 0.6f]: for the cell
    sizes that the program can have it is not below 0.6 times the cell size
    and exceeds it by less than one part in [2^23].  The main loop ends in
    [PathFound] exactly when one of its 10000 rounds appends a node whose
    distance to the goal is below that float, and it ends there, with the
    index of that node.  When it ends in [Exhausted] every one of the 10000
    rounds has been run, and none has appended such a node; and it ends in
    [Exhausted] whenever no round appends such a node (and no round reads
    [tree[-1]]). *)
Theorem plan_PathFound_iff :
  MAX_ITER = Z.to_nat 10000 /\
  (forall n evs, cellSize (configure n evs) = Z.quot canvasSize n) /\
  (forall pt,
     captured' pt = true <->
     dist sqrtQ pt (goalPt g) < capture_radius g) /\
  capture_radius g = binary32 (binary32 (inject_Z (cellSize g)) * binary32 (6 # 10)) /\
  (forall n, (1 <= n <= canvasSize)%Z -> cellSize g = Z.quot canvasSize n ->
     inject_Z (cellSize g) * (6 # 10) <= capture_radius g /\
     capture_radius g <= inject_Z (cellSize g) * (6 # 10) * (1 + (1 # 8388608))) /\
  (forall tree idx,
     plan g sqrtQ logQ rand = PathFound tree idx <->
     exists n t pt,
       (n < MAX_ITER)%nat /\ tree_at' n t /\
       iteration' n t = Inserted tree idx pt /\ captured' pt = true) /\
  (forall tree,
     plan g sqrtQ logQ rand = Exhausted tree ->
     forall n, (n < MAX_ITER)%nat ->
       exists t, tree_at' n t /\ goes_on g sqrtQ (iteration' n t)) /\
  ((forall n t, (n < MAX_ITER)%nat -> tree_at' n t -> goes_on g sqrtQ (iteration' n t)) ->
   exists tree, plan g sqrtQ logQ rand = Exhausted tree).
Proof.
  split; [reflexivity|].
  split; [intros n evs; unfold configure; apply setup_cellSize|].
  split; [intros pt; unfold captured; apply Qltb_lt|].
  split; [reflexivity|].
  split; [apply capture_radius_near|].
  split; [|split].
  - intros tree idx. rewrite plan_eq. split.
    + apply rrt_loop_found.
    + intros (n & t & pt & Hn & Hat & Hit & Hcap). eapply rrt_loop_finds; eassumption.
  - intros tree Hp n Hn. rewrite plan_eq in Hp.
    eapply rrt_loop_exhausted; eassumption.
  - rewrite plan_eq. apply rrt_loop_goes_on.
Qed.

End LoopFacts.

(** ** The smoothing *)

Section SmoothFacts.

Variable g : Globals.

Local Abbreviation cf := (collisionFree g).
Local Abbreviation scan' := (scan g).
Local Abbreviation steps' := (steps g).
Local Abbreviation smooth_loop' := (smooth_loop g).

(** *** The inner loop *)

Lemma scan_le (path : list Point) (i j : nat) : (scan' path i j <= j)%nat.
Proof.
  induction j as [|j IH]; simpl; [lia|].
  destruct (i <? S j)%nat; [|lia].
  destruct (cf (path !!! i) (path !!! S j)); lia.
Qed.

Lemma scan_ge (path : list Point) (i j : nat) :
  (i <= j)%nat -> (i <= scan' path i j)%nat.
Proof.
  induction j as [|j IH]; simpl; [lia|]. intros Hij.
  destruct (Nat.ltb_spec i (S j)); [|lia].
  destruct (cf (path !!! i) (path !!! S j)); [lia|]. apply IH. lia.
Qed.

(** Where the inner loop stops beyond the anchor, the segment is free. *)
Lemma scan_hit (path : list Point) (i j : nat) :
  (i < scan' path i j)%nat ->
  cf (path !!! i) (path !!! scan' path i j) = true.
Proof.
  induction j as [|j IH]; simpl; [lia|].
  destruct (Nat.ltb_spec i (S j)); [|lia].
  destruct (cf (path !!! i) (path !!! S j)) eqn:E; [intros _; exact E|exact IH].
Qed.

(** Beyond where it stops, no segment is free. *)
Lemma scan_miss (path : list Point) (i j j' : nat) :
  (scan' path i j < j' <= j)%nat -> cf (path !!! i) (path !!! j') = false.
Proof.
  induction j as [|j IH]; simpl; [lia|].
  destruct (Nat.ltb_spec i (S j)); [|lia].
  destruct (cf (path !!! i) (path !!! S j)) eqn:E; [lia|].
  intros Hj'. destruct (Nat.eq_dec j' (S j)) as [->|Hne]; [exact E|].
  apply IH. lia.
Qed.

Lemma scan_found (path : list Point) (i j j' : nat) :
  (i < j' <= j)%nat -> cf (path !!! i) (path !!! j') = true ->
  (j' <= scan' path i j)%nat.
Proof.
  intros Hj' Hcf. destruct (Nat.le_gt_cases j' (scan' path i j)) as [H|H]; [exact H|].
  rewrite (scan_miss path i j j') in Hcf by lia. discriminate.
Qed.

(** The inner loop moves the anchor exactly when a later point can be
    reached from it by a free segment. *)
Lemma scan_advances_iff (path : list Point) (i j : nat) :
  (i <= j)%nat ->
  (i < scan' path i j)%nat <->
  exists j', (i < j' <= j)%nat /\ cf (path !!! i) (path !!! j') = true.
Proof.
  intros Hij. split.
  - intros H. exists (scan' path i j). split; [|apply scan_hit, H].
    pose proof (scan_le path i j). lia.
  - intros (j' & Hj' & Hcf). pose proof (scan_found path i j j' Hj' Hcf). lia.
Qed.

Lemma scan_unique (path : list Point) (i j r : nat) :
  (i < r <= j)%nat -> cf (path !!! i) (path !!! r) = true ->
  (forall j', (r < j' <= j)%nat -> cf (path !!! i) (path !!! j') = false) ->
  scan' path i j = r.
Proof.
  intros Hr Hcf Hmiss. pose proof (scan_found path i j r Hr Hcf) as Hle.
  destruct (Nat.eq_dec (scan' path i j) r) as [E|Hne]; [exact E|].
  pose proof (scan_le path i j) as Hj.
  assert (Hi : (i < scan' path i j)%nat) by lia.
  pose proof (scan_hit path i j Hi) as Hhit.
  rewrite Hmiss in Hhit by lia. discriminate.
Qed.

(** *** The outer loop *)

(** A trace of the outer loop moves the anchor at every step. *)
Lemma steps_advance (path : list Point) (i : nat) (js : list nat) :
  steps' path i js -> (i < length path - 1)%nat ->
  scan' path i (length path - 1) <> i.
Proof.
  induction 1 as [i Hi|i js Hi Hs IH]; intros Hlt; [contradiction|].
  intros E. rewrite E in IH. apply IH; assumption.
Qed.

Lemma steps_beyond (path : list Point) (i : nat) (js : list nat) (x : nat) :
  steps' path i js -> In x js -> (i < x <= length path - 1)%nat.
Proof.
  induction 1 as [i Hi|i js Hi Hs IH]; intros Hx; [destruct Hx|].
  pose proof (steps_advance _ _ _ (steps_next g path i js Hi Hs) Hi) as Hne.
  pose proof (scan_ge path i (length path - 1)) as Hge.
  pose proof (scan_le path i (length path - 1)) as Hle.
  destruct Hx as [<-|Hx]; [lia|].
  apply IH in Hx. lia.
Qed.

Lemma steps_length (path : list Point) (i : nat) (js : list nat) :
  steps' path i js -> (i <= length path - 1)%nat ->
  (length js <= length path - 1 - i)%nat.
Proof.
  induction 1 as [i Hi|i js Hi Hs IH]; intros Hle; simpl; [lia|].
  pose proof (steps_beyond _ _ _ (scan' path i (length path - 1))
                (steps_next g path i js Hi Hs) (or_introl eq_refl)).
  lia.
Qed.

Lemma steps_last (path : list Point) (i : nat) (js : list nat) :
  steps' path i js -> (i <= length path - 1)%nat ->
  last (i :: js) = Some (length path - 1)%nat.
Proof.
  induction 1 as [i Hi|i js Hi Hs IH]; intros Hle.
  - simpl. f_equal. lia.
  - rewrite last_cons_cons. apply IH. apply scan_le.
Qed.

(** The loop follows the trace, and [fuel] for its steps is enough. *)
Lemma smooth_loop_steps (path : list Point) (i : nat) (js : list nat)
    (fuel : nat) (smoothed : list Point) :
  steps' path i js -> (length js <= fuel)%nat ->
  smooth_loop' fuel path i smoothed =
  Some (smoothed ++ map (fun k => path !!! k) js).
Proof.
  intros Hs. revert fuel smoothed.
  induction Hs as [i Hi|i js Hi Hs IH]; intros fuel smoothed Hf.
  - destruct fuel; simpl; destruct (Nat.ltb_spec i (length path - 1));
      try contradiction; rewrite app_nil_r; reflexivity.
  - destruct fuel as [|fuel]; [simpl in Hf; lia|].
    cbn [smooth_loop]. destruct (Nat.ltb_spec i (length path - 1)); [|lia].
    rewrite IH by (simpl in Hf; lia). rewrite <- app_assoc. reflexivity.
Qed.

(** When the loop ends it has followed a trace. *)
Lemma smooth_loop_Some (path : list Point) (fuel i : nat)
    (smoothed s : list Point) :
  smooth_loop' fuel path i smoothed = Some s ->
  exists js, steps' path i js /\ s = smoothed ++ map (fun k => path !!! k) js.
Proof.
  revert i smoothed. induction fuel as [|fuel IH]; intros i smoothed; simpl;
    destruct (Nat.ltb_spec i (length path - 1)) as [Hi|Hi]; try discriminate.
  - intros [= <-]. exists []. split; [apply steps_done; lia|].
    rewrite app_nil_r. reflexivity.
  - intros H. apply IH in H. destruct H as (js & Hs & ->).
    exists (scan' path i (length path - 1) :: js).
    split; [apply steps_next; assumption|].
    rewrite <- app_assoc. reflexivity.
  - intros [= <-]. exists []. split; [apply steps_done; lia|].
    rewrite app_nil_r. reflexivity.
Qed.

(** On a path with free segments the loop has a trace from every anchor. *)
Lemma steps_exists (path : list Point) (d i : nat) :
  segments_free g path -> (length path - 1 - i <= d)%nat ->
  exists js, steps' path i js.
Proof.
  intros Hfree. revert i. induction d as [|d IH]; intros i Hd.
  - exists []. apply steps_done. lia.
  - destruct (Nat.lt_ge_cases i (length path - 1)) as [Hi|Hi];
      [|exists []; apply steps_done; lia].
    assert (Hnext : (S i <= scan' path i (length path - 1))%nat).
    { apply scan_found; [lia|]. apply Hfree. lia. }
    destruct (IH (scan' path i (length path - 1))) as (js & Hjs); [lia|].
    eexists. apply steps_next; eassumption.
Qed.

(** Every step of a trace is a free segment. *)
Lemma steps_free (path : list Point) (i : nat) (js : list nat) :
  steps' path i js ->
  segments_free g (map (fun k => path !!! k) (i :: js)).
Proof.
  induction 1 as [i Hi|i js Hi Hs IH]; intros k Hk; simpl in Hk; [lia|].
  pose proof (steps_advance _ _ _ (steps_next g path i js Hi Hs) Hi) as Hne.
  pose proof (scan_ge path i (length path - 1)) as Hge.
  destruct k as [|k].
  - simpl. apply scan_hit. lia.
  - apply (IH k). simpl. lia.
Qed.

Lemma lookup_total_map (f : nat -> Point) (l : list nat) (k : nat) :
  (k < length l)%nat -> map f l !!! k = f (l !!! k).
Proof.
  revert k. induction l as [|x l IH]; intros k Hk; simpl in Hk; [lia|].
  destruct k as [|k]; [reflexivity|]. apply (IH k). lia.
Qed.

Lemma lookup_total_In (l : list nat) (k : nat) :
  (k < length l)%nat -> In (l !!! k) l.
Proof.
  revert k. induction l as [|x l IH]; intros k Hk; simpl in Hk; [lia|].
  destruct k as [|k]; [left; reflexivity|]. right. apply (IH k). lia.
Qed.

(** From an anchor of a trace, no anchor after the next can be reached by a
    free segment. *)
Lemma steps_far (path : list Point) (i : nat) (js : list nat) (m j' : nat) :
  steps' path i js -> (S m < j' < length (i :: js))%nat ->
  cf (path !!! ((i :: js) !!! m)) (path !!! ((i :: js) !!! j')) = false.
Proof.
  intros Hs. revert m j'.
  induction Hs as [i Hi|i js Hi Hs IH]; intros m j' Hj'; simpl in Hj'; [lia|].
  destruct m as [|m].
  - destruct j' as [|[|j']]; try lia.
    change (cf (path !!! i) (path !!! (js !!! j')) = false).
    apply (scan_miss path i (length path - 1)).
    apply (steps_beyond path _ js); [exact Hs|].
    apply lookup_total_In. lia.
  - destruct j' as [|j']; [lia|].
    apply (IH m j'). simpl. lia.
Qed.

Lemma map_lookup_seq (s : list Point) :
  map (fun k => s !!! k) (seq 0 (length s)) = s.
Proof.
  induction s as [|x s IH]; [reflexivity|].
  simpl. f_equal. rewrite <- seq_shift, map_map. exact IH.
Qed.

Lemma cons_lookup_seq (s : list Point) :
  s <> [] -> s !!! 0%nat :: map (fun k => s !!! k) (seq 1 (length s - 1)) = s.
Proof.
  destruct s as [|x s]; [contradiction|]. intros _. simpl.
  rewrite Nat.sub_0_r. f_equal. rewrite <- seq_shift, map_map.
  apply map_lookup_seq.
Qed.

(** On a list where the inner loop always stops at the next point the trace
    takes every point. *)
Lemma steps_every_point (s : list Point) (d m : nat) :
  (forall k, (S k < length s)%nat -> scan' s k (length s - 1) = S k) ->
  (m + d = length s - 1)%nat -> steps' s m (seq (S m) d).
Proof.
  intros Hscan. revert m. induction d as [|d IH]; intros m Hm; simpl.
  - apply steps_done. lia.
  - rewrite <- (Hscan m) at 1 by lia. apply steps_next; [lia|].
    rewrite Hscan by lia. apply IH. lia.
Qed.

(** *** The smoothing of a path with free segments *)

Lemma smooth_sound (path : list Point) (fuel : nat) :
  path <> [] -> segments_free g path -> (length path <= fuel)%nat ->
  exists js,
    steps' path 0 js /\
    smooth g fuel path = Some (map (fun k => path !!! k) (0%nat :: js)) /\
    head (map (fun k => path !!! k) (0%nat :: js)) = head path /\
    last (map (fun k => path !!! k) (0%nat :: js)) = last path /\
    (length (map (fun k => path !!! k) (0%nat :: js)) <= length path)%nat /\
    segments_free g (map (fun k => path !!! k) (0%nat :: js)).
Proof.
  intros Hne Hfree Hfuel.
  destruct (steps_exists path (length path) 0 Hfree) as (js & Hjs); [lia|].
  pose proof (steps_length _ _ _ Hjs) as Hlen.
  exists js. split; [exact Hjs|]. split; [|split; [|split; [|split]]].
  - unfold smooth. rewrite (smooth_loop_steps _ _ _ _ _ Hjs) by lia. reflexivity.
  - destruct path; [contradiction|reflexivity].
  - change (map (fun k => path !!! k) (0%nat :: js))
      with ((fun k => path !!! k) <$> (0%nat :: js)).
    rewrite fmap_last, (steps_last _ _ _ Hjs) by lia. simpl.
    rewrite last_lookup. symmetry.
    replace (Nat.pred (length path)) with (length path - 1)%nat by lia.
    apply list_lookup_lookup_total_lt.
    destruct path; [contradiction|simpl; lia].
  - rewrite length_map. simpl.
    destruct path; [contradiction|simpl in *; lia].
  - apply steps_free, Hjs.
Qed.

(** What the smoothing returns it returns again. *)
Lemma smooth_fixpoint (path : list Point) (js : list nat) :
  steps' path 0 js ->
  smooth g (length (0%nat :: js)) (map (fun k => path !!! k) (0%nat :: js)) =
  Some (map (fun k => path !!! k) (0%nat :: js)).
Proof.
  intros Hjs.
  set (a := (0%nat :: js)). set (s := map (fun k => path !!! k) a).
  assert (Hlen : length s = length a) by apply length_map.
  assert (Hs : forall k, (k < length a)%nat -> s !!! k = path !!! (a !!! k)).
  { intros k Hk. unfold s. apply (lookup_total_map (fun k => path !!! k)), Hk. }
  assert (Hscan : forall k, (S k < length s)%nat ->
                            scan' s k (length s - 1) = S k).
  { intros k Hk. apply scan_unique; [lia| |].
    - apply (steps_free _ _ _ Hjs k). fold a. fold s. exact Hk.
    - intros j' Hj'. rewrite !Hs by lia. apply steps_far; [exact Hjs|].
      fold a. lia. }
  unfold smooth.
  rewrite (smooth_loop_steps s 0 (seq 1 (length s - 1))).
  - f_equal. apply cons_lookup_seq. unfold s, a. discriminate.
  - apply steps_every_point; [exact Hscan|lia].
  - rewrite length_seq. lia.
Qed.

(** When the inner loop leaves the anchor where it is, the outer loop does
    not end. *)
Lemma smooth_loop_stuck (path : list Point) (i fuel : nat)
    (smoothed : list Point) :
  (i < length path - 1)%nat -> scan' path i (length path - 1) = i ->
  smooth_loop' fuel path i smoothed = None.
Proof.
  intros Hi Hstuck. revert smoothed.
  induction fuel as [|fuel IH]; intros smoothed; simpl;
    destruct (Nat.ltb_spec i (length path - 1)); try lia; [reflexivity|].
  rewrite Hstuck. apply IH.
Qed.

Lemma anchor_stuck (path : list Point) (i : nat) :
  anchor g path i ->
  (forall fuel smoothed, smooth_loop' fuel path i smoothed = None) ->
  forall fuel smoothed, smooth_loop' fuel path 0 smoothed = None.
Proof.
  induction 1 as [|i Ha IH Hi]; intros Hnone; [exact Hnone|].
  apply IH. intros fuel smoothed.
  destruct fuel as [|fuel]; simpl;
    destruct (Nat.ltb_spec i (length path - 1)); try lia; [reflexivity|].
  apply Hnone.
Qed.

(** C10.  The inner loop never moves the anchor back, and it moves the anchor
    on exactly when some later point can be reached from the anchor by a
    segment that passes [collisionFree].  On a path where every segment
    passes, the anchor moves on in every round and the loop ends.  When the
    loop comes to an anchor from which no later point can be reached, the
    inner loop ends with [j == i] and the loop does not end, whatever the
    fuel. *)
Theorem shortcut_loop_termination :
  (forall path i,
     (i <= length path - 1)%nat ->
     (i <= scan' path i (length path - 1))%nat /\
     ((i < scan' path i (length path - 1))%nat <->
      exists j, (i < j <= length path - 1)%nat /\
                cf (path !!! i) (path !!! j) = true)) /\
  (forall path,
     segments_free g path ->
     (forall i, (i < length path - 1)%nat ->
                (i < scan' path i (length path - 1))%nat) /\
     exists smoothed, smooth g (length path) path = Some smoothed) /\
  (forall path i,
     anchor g path i -> (i < length path - 1)%nat ->
     (forall j, (i < j <= length path - 1)%nat ->
                cf (path !!! i) (path !!! j) = false) ->
     scan' path i (length path - 1) = i /\
     forall fuel, smooth g fuel path = None).
Proof.
  split; [|split].
  - intros path i Hi. split; [apply scan_ge, Hi|apply scan_advances_iff, Hi].
  - intros path Hfree. split.
    + intros i Hi. apply scan_advances_iff; [lia|].
      exists (S i). split; [lia|]. apply Hfree. lia.
    + destruct (steps_exists path (length path) 0 Hfree) as (js & Hjs); [lia|].
      pose proof (steps_length _ _ _ Hjs) as Hlen.
      eexists. unfold smooth. apply smooth_loop_steps; [exact Hjs|lia].
  - intros path i Ha Hi Hnone.
    assert (Hstuck : scan' path i (length path - 1) = i).
    { pose proof (scan_ge path i (length path - 1)) as Hge.
      destruct (Nat.eq_dec (scan' path i (length path - 1)) i) as [E|Hne];
        [exact E|].
      assert (Hlt : (i < scan' path i (length path - 1))%nat) by lia.
      pose proof (scan_hit path i _ Hlt) as Hhit.
      pose proof (scan_le path i (length path - 1)).
      rewrite Hnone in Hhit by lia. discriminate. }
    split; [exact Hstuck|].
    intros fuel. unfold smooth. apply (anchor_stuck path i Ha).
    intros fuel' smoothed. apply smooth_loop_stuck; assumption.
Qed.

End SmoothFacts.

(** ** The path of the planner *)

Section PathFacts.

Variable g : Globals.
Variable sqrtQ : Q -> Q.
Variable logQ : Q -> Q.
Variable rand : nat -> Point.

Hypothesis sqrtQ_nonneg : forall x, 0 <= sqrtQ x.

Local Abbreviation cf := (collisionFree g).

Lemma segments_free_snoc (xs : list Point) (y : Point) :
  segments_free g xs ->
  (forall x, last xs = Some x -> cf x y = true) ->
  segments_free g (xs ++ [y]).
Proof.
  intros Hfree Hlast k Hk. rewrite length_app in Hk. simpl in Hk.
  destruct (Nat.eq_dec (S k) (length xs)) as [E|Hne].
  - rewrite lookup_total_app_l by lia.
    rewrite lookup_total_app_r, E, Nat.sub_diag by lia. simpl.
    apply Hlast. rewrite last_lookup.
    replace (Nat.pred (length xs)) with k by lia.
    apply list_lookup_lookup_total_lt. lia.
  - rewrite !lookup_total_app_l by lia. apply Hfree. lia.
Qed.

(** The raw path runs along edges of the tree, from the parent to the
    child, so its segments are free. *)
Lemma chain_segments (tree : list Node) (j : nat) (l : list nat) :
  well_formed g sqrtQ tree -> chain tree j l ->
  segments_free g (rev (map (fun a => point (tree !!! a)) l)).
Proof.
  intros Hwf. induction 1 as [j Hj Hp|j p l Hj Hp Hc IH].
  - intros k Hk. simpl in Hk. lia.
  - simpl. apply segments_free_snoc; [exact IH|].
    intros x Hx.
    destruct (chain_head _ _ _ Hc) as (l' & ->).
    simpl in Hx. rewrite last_snoc in Hx. injection Hx as <-.
    assert (H0 : (0 < j)%nat).
    { destruct j; [|lia]. destruct (wf_root _ _ _ Hwf) as (_ & Hr & _).
      rewrite Hr in Hp. lia. }
    destruct (wf_edge _ _ _ Hwf j (conj H0 Hj)) as (p' & Hp' & _ & _ & Hcf).
    rewrite Hp in Hp'. apply Nat2Z.inj in Hp'. subst p'. exact Hcf.
Qed.

Lemma extractPath_chain (tree : list Node) (j : nat) (l : list nat) (fuel : nat) :
  chain tree j l -> (length l <= fuel)%nat ->
  extractPath fuel tree (Z.of_nat j) =
  Some (rev (map (fun a => point (tree !!! a)) l)).
Proof.
  intros Hc Hf. unfold extractPath.
  rewrite (walk_chain _ _ _ _ [] Hc Hf). reflexivity.
Qed.

(** The raw path of a node of the tree: it is there, it is not empty, it is
    no longer than the tree, and its segments are free. *)
Lemma raw_path (tree : list Node) (goalIdx : nat) :
  tree_state g sqrtQ logQ rand tree -> (goalIdx < length tree)%nat ->
  exists path,
    extractPath (length tree) tree (Z.of_nat goalIdx) = Some path /\
    path <> [] /\ (length path <= length tree)%nat /\ segments_free g path.
Proof.
  intros Hst Hj.
  apply (tree_state_well_formed g sqrtQ logQ rand sqrtQ_nonneg) in Hst.
  destruct (wf_chain _ _ _ Hst goalIdx Hj) as (l & Hl).
  pose proof (chain_length _ _ _ Hl) as Hlen.
  exists (rev (map (fun a => point (tree !!! a)) l)).
  split; [apply extractPath_chain; assumption|].
  split; [|split].
  - destruct (chain_head _ _ _ Hl) as (l' & ->). simpl.
    intros E. apply app_eq_nil in E. destruct E as [_ E]. discriminate E.
  - rewrite length_rev, length_map. exact Hlen.
  - apply (chain_segments tree goalIdx l Hst Hl).
Qed.

(** The tree that the main loop ends with is one of its states, and the
    node of [goalIdx] is in it. *)
Lemma plan_tree_state (tree : list Node) (goalIdx : nat) :
  plan g sqrtQ logQ rand = PathFound tree goalIdx ->
  tree_state g sqrtQ logQ rand tree /\ (goalIdx < length tree)%nat.
Proof.
  rewrite (plan_eq g sqrtQ logQ rand). intros Hp.
  destruct (rrt_loop_found g sqrtQ logQ rand MAX_ITER tree goalIdx Hp)
    as (n & t & pt & Hn & Hat & Hit & _).
  pose proof (tree_at_well_formed g sqrtQ logQ rand sqrtQ_nonneg n t Hat) as Hwf.
  destruct (iteration_well_formed g sqrtQ logQ rand sqrtQ_nonneg
              _ _ _ _ _ Hwf Hit) as (_ & -> & Hlen & _).
  split; [|lia].
  unfold iteration in Hit.
  destruct (candidate g sqrtQ logQ rand n t) as [| |newPt bp bc r] eqn:Hc;
    try discriminate.
  injection Hit as <- _. rewrite length_app. simpl.
  replace (length t + 1)%nat with (S (length t)) by lia.
  apply state_within with n; [exact Hn|exact Hat|exact Hc|lia].
Qed.

(** C6.  For every node of a tree of the main loop the raw path is there and
    is not empty, and [smoothPath] returns a path that starts where the raw
    path starts, ends where it ends, has no more points, and has every
    segment pass [collisionFree]. *)
Theorem smoothPath_sound (tree : list Node) (goalIdx : nat) :
  tree_state g sqrtQ logQ rand tree -> (goalIdx < length tree)%nat ->
  exists path smoothed,
    extractPath (length tree) tree (Z.of_nat goalIdx) = Some path /\
    path <> [] /\
    smoothPath g (length tree) tree (Z.of_nat goalIdx) = Some smoothed /\
    head smoothed = head path /\
    last smoothed = last path /\
    (length smoothed <= length path)%nat /\
    segments_free g smoothed.
Proof.
  intros Hst Hj.
  destruct (raw_path tree goalIdx Hst Hj) as (path & Hex & Hne & Hlen & Hfree).
  destruct (smooth_sound g path (length tree) Hne Hfree Hlen)
    as (js & _ & Hsm & Hhead & Hlast & Hle & Hsf).
  exists path, (map (fun k => path !!! k) (0%nat :: js)).
  split; [exact Hex|]. split; [exact Hne|].
  split; [unfold smoothPath; rewrite Hex; exact Hsm|]. auto.
Qed.

(** C7.  For the raw path of every node of a tree of the main loop, the
    smoothing returns a path, and the smoothing of that path returns it
    again. *)
Theorem smooth_idempotent (tree : list Node) (goalIdx : nat) :
  tree_state g sqrtQ logQ rand tree -> (goalIdx < length tree)%nat ->
  exists path smoothed,
    extractPath (length tree) tree (Z.of_nat goalIdx) = Some path /\
    smooth g (length path) path = Some smoothed /\
    smooth g (length smoothed) smoothed = Some smoothed.
Proof.
  intros Hst Hj.
  destruct (raw_path tree goalIdx Hst Hj) as (path & Hex & Hne & Hlen & Hfree).
  destruct (smooth_sound g path (length path) Hne Hfree (Nat.le_refl _))
    as (js & Hjs & Hsm & _).
  exists path, (map (fun k => path !!! k) (0%nat :: js)).
  split; [exact Hex|]. split; [exact Hsm|].
  rewrite length_map. apply smooth_fixpoint, Hjs.
Qed.

End PathFacts.

(** When [main] has found a path it has a smoothed path, and every segment of
    it passes [collisionFree]. *)
Corollary main_smoothed (sqrtQ logQ : Q -> Q) (rand : nat -> Point)
    (n : Z) (evs : list Event) (tree : list Node) (goalIdx : nat)
    (smoothed : option (list Point)) :
  (forall x, 0 <= sqrtQ x) ->
  main sqrtQ logQ rand n evs = Planned (PathFound tree goalIdx) smoothed ->
  exists path, smoothed = Some path /\ segments_free (configure n evs) path.
Proof.
  intros Hsqrt. unfold main.
  destruct (configured (configure n evs)); [|discriminate].
  destruct (plan (configure n evs) sqrtQ logQ rand) as [t i|t|] eqn:Hp;
    try discriminate.
  intros [= <- <- <-].
  destruct (plan_tree_state _ _ _ _ Hsqrt _ _ Hp) as [Hst Hi].
  destruct (raw_path _ _ _ _ Hsqrt _ _ Hst Hi) as (path & Hex & Hne & Hlen & Hfree).
  destruct (smooth_sound _ path (length t) Hne Hfree Hlen)
    as (js & _ & Hsm & _ & _ & _ & Hsf).
  eexists. split; [|exact Hsf].
  unfold smoothPath. rewrite Hex. exact Hsm.
Qed.

(** ** The runs *)

Lemma sqrt6_nonneg (x : Q) : 0 <= sqrt6 x.
Proof.
  unfold sqrt6, Qle. simpl. rewrite Z.mul_1_r. apply Z.sqrt_nonneg.
Qed.

(** The run of [detour_rand] does not reach the goal in its first rounds. *)
Lemma detour_tree_at :
  tree_at open_grid sqrt6 ln_series detour_rand 4 detour_tree.
Proof. unfold tree_at. vm_compute. reflexivity. Qed.

Lemma detour_tree_state :
  tree_state open_grid sqrt6 ln_series detour_rand detour_tree.
Proof.
  apply state_between with 4%nat; [unfold MAX_ITER; lia|exact detour_tree_at].
Qed.

(** C2 on the run of [detour_rand]: the walk from the node (82, 104). *)
Lemma parents_reach_root_witness :
  exists path,
    walk (length detour_tree) detour_tree 3 [] = Some path /\
    (length path <= length detour_tree)%nat.
Proof.
  assert (H3 : (3 < length detour_tree)%nat) by (vm_compute; lia).
  exact (proj1 (parents_reach_root open_grid sqrt6 ln_series detour_rand
                  sqrt6_nonneg detour_tree 3 detour_tree_state H3)).
Defined.






(** C6 on the run of [detour_rand]: the path to the node (82, 104). *)
Lemma smoothPath_sound_witness :
  exists path smoothed,
    extractPath (length detour_tree) detour_tree 3 = Some path /\
    path <> [] /\
    smoothPath open_grid (length detour_tree) detour_tree 3 = Some smoothed /\
    head smoothed = head path /\
    last smoothed = last path /\
    (length smoothed <= length path)%nat /\
    segments_free open_grid smoothed.
Proof.
  assert (H3 : (3 < length detour_tree)%nat) by (vm_compute; lia).
  exact (smoothPath_sound open_grid sqrt6 ln_series detour_rand sqrt6_nonneg
           detour_tree 3 detour_tree_state H3).
Defined.

(** C7 on the run of [detour_rand]: the path to the node (82, 104). *)
Lemma smooth_idempotent_witness :
  exists path smoothed,
    extractPath (length detour_tree) detour_tree 3 = Some path /\
    smooth open_grid (length path) path = Some smoothed /\
    smooth open_grid (length smoothed) smoothed = Some smoothed.
Proof.
  assert (H3 : (3 < length detour_tree)%nat) by (vm_compute; lia).
  exact (smooth_idempotent open_grid sqrt6 ln_series detour_rand sqrt6_nonneg
           detour_tree 3 detour_tree_state H3).
Defined.

(** The raw path to (82, 104) in [detour_tree] has four points, and the
    smoothing keeps the two ends. *)
Example detour_smoothPath :
  option_map (map (fun p => (Qred (px p), Qred (py p))))
    (extractPath (length detour_tree) detour_tree 3) =
  Some [(50, 50); (66, 62); (82, 74); (82, 104)] /\
  option_map (map (fun p => (Qred (px p), Qred (py p))))
    (smoothPath open_grid (length detour_tree) detour_tree 3) =
  Some [(50, 50); (82, 104)].
Proof. split; vm_compute; reflexivity. Qed.

(** From the first point of [blocked_path] the second cannot be reached. *)
Lemma blocked_path_anchor :
  anchor corner_blocked blocked_path 0 /\
  (0 < length blocked_path - 1)%nat /\
  forall j, (0 < j <= length blocked_path - 1)%nat ->
    collisionFree corner_blocked (blocked_path !!! 0%nat) (blocked_path !!! j) = false.
Proof.
  split; [constructor|]. split; [simpl; lia|].
  intros j Hj. simpl in Hj. assert (j = 1)%nat as -> by lia.
  vm_compute. reflexivity.
Qed.

(** C10 on [blocked_path]: the loop stays at the anchor 0. *)
Lemma shortcut_loop_termination_witness :
  scan corner_blocked blocked_path 0 (length blocked_path - 1) = 0%nat /\
  forall fuel, smooth corner_blocked fuel blocked_path = None.
Proof.
  destruct blocked_path_anchor as (Ha & Hlt & Hnone).
  exact (proj2 (proj2 (shortcut_loop_termination corner_blocked))
           blocked_path 0%nat Ha Hlt Hnone).
Defined.

Lemma same_cell_plan_found :
  plan (configure 5 same_cell) sqrt6 ln_series detour_rand =
  PathFound (final_tree same_cell_plan) 1.
Proof. vm_compute. reflexivity. Qed.

(** C5 on the run of [same_cell]: round 1 appends a node within the capture
    radius. *)
Lemma plan_PathFound_iff_witness :
  exists n t pt,
    (n < MAX_ITER)%nat /\
    tree_at (configure 5 same_cell) sqrt6 ln_series detour_rand n t /\
    iteration (configure 5 same_cell) sqrt6 ln_series detour_rand n t =
      Inserted (final_tree same_cell_plan) 1 pt /\
    captured (configure 5 same_cell) sqrt6 pt = true.
Proof.
  destruct (plan_PathFound_iff (configure 5 same_cell) sqrt6 ln_series detour_rand)
    as (_ & _ & _ & _ & _ & Hfound & _).
  apply Hfound. exact same_cell_plan_found.
Defined.

(** C5 as stated fails at the edge of the radius.  On cells of 100 pixels
    the float [cellSize * 0.6f] is 60.0000038: the run of [capture_rand]
    appends the node (190, 50), which is 60 pixels from the goal and so not
    nearer than 0.6 times the cell size, and ends in [PathFound] with it.  On
    cells of 125 pixels the float is 75, and a node 75 pixels from the goal,
    which is 0.6 times the cell size, is not captured. *)
Lemma plan_PathFound_iff_counterexample :
  (exists tree,
     plan capture_grid sqrt6 ln_series capture_rand = PathFound tree 3 /\
     length tree = 4%nat /\ point (tree !!! 3%nat) = mkPoint 190 50 /\
     dist sqrt6 (mkPoint 190 50) (goalPt capture_grid) ==
       inject_Z (cellSize capture_grid) * (6 # 10) /\
     ~ dist sqrt6 (mkPoint 190 50) (goalPt capture_grid) <
       inject_Z (cellSize capture_grid) * (6 # 10) /\
     capture_radius capture_grid = 15728641 # 262144) /\
  (cellSize grid4 = 125%Z /\
   dist sqrt6 (mkPoint 237 62) (goalPt grid4) == inject_Z (cellSize grid4) * (6 # 10) /\
   capture_radius grid4 = 75 /\
   captured grid4 sqrt6 (mkPoint 237 62) = false).
Proof.
  split.
  - eexists. split; [vm_compute; reflexivity|].
    split; [reflexivity|]. split; [reflexivity|].
    split; [vm_compute; reflexivity|].
    split; [vm_compute; discriminate|vm_compute; reflexivity].
  - split; [reflexivity|]. split; [vm_compute; reflexivity|].
    split; vm_compute; reflexivity.
Qed.

(** ** More on the occupancy queries *)

Lemma std_clamp_range (v lo hi : Q) : lo <= hi -> lo <= std_clamp v lo hi <= hi.
Proof.
  intros H. unfold std_clamp.
  destruct (Qltb v lo) eqn:E1; [lra|]. apply Qltb_ge in E1.
  destruct (Qltb hi v) eqn:E2; [lra|]. apply Qltb_ge in E2. lra.
Qed.

Lemma std_clamp_id (v lo hi : Q) : lo <= v <= hi -> std_clamp v lo hi = v.
Proof.
  intros [H1 H2]. unfold std_clamp.
  destruct (Qltb v lo) eqn:E1; [apply Qltb_lt in E1; lra|].
  destruct (Qltb hi v) eqn:E2; [apply Qltb_lt in E2; lra|]. reflexivity.
Qed.

Lemma clampToGrid_range (pt : Point) :
  0 <= px (clampToGrid pt) <= 499 /\ 0 <= py (clampToGrid pt) <= 499.
Proof.
  unfold clampToGrid. simpl. split; apply std_clamp_range; discriminate.
Qed.

(** X1.  [clampToGrid] returns a point of the canvas, both coordinates from 0
    to 499, and it returns a point of the canvas as it is. *)
Theorem clampToGrid_canvas (pt : Point) :
  (0 <= px (clampToGrid pt) <= 499 /\ 0 <= py (clampToGrid pt) <= 499) /\
  (0 <= px pt <= 499 -> 0 <= py pt <= 499 -> clampToGrid pt = pt).
Proof.
  split; [apply clampToGrid_range|].
  intros Hx Hy. unfold clampToGrid. destruct pt as [x y]. simpl in *.
  rewrite !std_clamp_id; [reflexivity| |]; assumption.
Qed.

(** X2.  When the cells cover the canvas ([gridSize * cellSize = canvasSize],
    the grid size divides 500), every clamped point is inside the grid. *)
Theorem clampToGrid_inside (g : Globals) (pt : Point) :
  (0 < cellSize g)%Z -> (gridSize g * cellSize g = canvasSize)%Z ->
  isInsideGrid g (clampToGrid pt) = true.
Proof.
  intros Hcs Hcover.
  destruct (clampToGrid_range pt) as [Hx Hy].
  assert (Hext : inject_Z (gridSize g * cellSize g) == 500) by (rewrite Hcover; reflexivity).
  destruct (index_inside g Hcs (px (clampToGrid pt))) as [[Hc0 Hc1] _]; [lra|].
  destruct (index_inside g Hcs (py (clampToGrid pt))) as [[Hr0 Hr1] _]; [lra|].
  unfold isInsideGrid, cellOf.
  rewrite !andb_true_iff, !Z.leb_le, !Z.ltb_lt. tauto.
Qed.


Lemma Qtrunc_comp (x y : Q) : x == y -> Qtrunc x = Qtrunc y.
Proof.
  intros E. destruct (Qlt_le_dec x 0) as [H|H].
  - rewrite !Qtrunc_nonpos by lra. rewrite E. reflexivity.
  - rewrite !Qtrunc_nonneg by lra. rewrite E. reflexivity.
Qed.

Lemma Qtrunc_mono (x y : Q) : x <= y -> (Qtrunc x <= Qtrunc y)%Z.
Proof.
  intros H. destruct (Qlt_le_dec x 0) as [Hx|Hx].
  - destruct (Qlt_le_dec y 0) as [Hy|Hy].
    + rewrite !Qtrunc_nonpos by lra. apply Qceiling_resp_le, H.
    + rewrite (Qtrunc_nonpos x), (Qtrunc_nonneg y) by lra.
      assert (H1 : (Qceiling x <= Qceiling 0)%Z) by (apply Qceiling_resp_le; lra).
      assert (H2 : (Qfloor 0 <= Qfloor y)%Z) by (apply Qfloor_resp_le; lra).
      change (Qceiling 0) with 0%Z in H1. change (Qfloor 0) with 0%Z in H2. lia.
  - rewrite !Qtrunc_nonneg by lra. apply Qfloor_resp_le, H.
Qed.

Lemma cellOf_comp (g : Globals) (a b : Point) : peq a b -> cellOf g a = cellOf g b.
Proof.
  intros [Hx Hy]. unfold cellOf. f_equal; apply Qtrunc_comp.
  - rewrite Hy. reflexivity.
  - rewrite Hx. reflexivity.
Qed.

Lemma isInsideGrid_comp (g : Globals) (a b : Point) :
  peq a b -> isInsideGrid g a = isInsideGrid g b.
Proof. intros H. unfold isInsideGrid. rewrite (cellOf_comp g a b H). reflexivity. Qed.

Lemma isObstacle_comp (g : Globals) (a b : Point) :
  peq a b -> isObstacle g a = isObstacle g b.
Proof.
  intros H. unfold isObstacle.
  rewrite (isInsideGrid_comp g a b H), (cellOf_comp g a b H). reflexivity.
Qed.

Lemma collisionFree_loop_true (g : Globals) (a b : Point) (ks : list Z) :
  collisionFree_loop g a b ks = true <->
  forall i, In i ks ->
    isInsideGrid g (sample a b i) = true /\ isObstacle g (sample a b i) = false.
Proof.
  induction ks as [|k ks IH]; simpl.
  - split; [intros _ i []|reflexivity].
  - destruct (isInsideGrid g (sample a b k)) eqn:Hin; simpl.
    + destruct (isObstacle g (sample a b k)) eqn:Hob.
      * split; [discriminate|]. intros H.
        destruct (H k (or_introl eq_refl)) as [_ H']. congruence.
      * rewrite IH. split.
        -- intros H i [<-|Hi]; [auto|apply H, Hi].
        -- intros H i Hi. apply H. right. exact Hi.
    + split; [discriminate|]. intros H.
      destruct (H k (or_introl eq_refl)) as [H' _]. congruence.
Qed.

(** ** Segments between pixels

    A pixel has integer coordinates.  Between two pixels the float
    difference is the difference, and the samples of [collisionFree] lie
    between the two ends, the last on the end. *)

Lemma fsub_Z (a b : Z) :
  (Z.abs a <= 2 ^ 23)%Z -> (Z.abs b <= 2 ^ 23)%Z ->
  fsub (inject_Z b) (inject_Z a) == inject_Z (b - a).
Proof.
  intros Ha Hb. unfold fsub.
  rewrite (binary32_comp _ (inject_Z (b - a))).
  - apply binary32_Z. change (2 ^ 24)%Z with (2 ^ 23 + 2 ^ 23)%Z. lia.
  - unfold Z.sub. rewrite inject_Z_plus, inject_Z_opp. reflexivity.
Qed.

Lemma fdiv_10_10 : fdiv (inject_Z 10) 10 = 1.
Proof. vm_compute. reflexivity. Qed.

Lemma coordinate_end (a b : Z) :
  (Z.abs a <= 2 ^ 23)%Z -> (Z.abs b <= 2 ^ 23)%Z ->
  fadd (inject_Z a) (fmul (fsub (inject_Z b) (inject_Z a)) (fdiv (inject_Z 10) 10))
  == inject_Z b.
Proof.
  intros Ha Hb. rewrite fdiv_10_10. pose proof (fsub_Z a b Ha Hb) as Ed.
  assert (Ep : fmul (fsub (inject_Z b) (inject_Z a)) 1 == inject_Z (b - a)).
  { unfold fmul. rewrite (binary32_comp _ (inject_Z (b - a))).
    - apply binary32_Z. change (2 ^ 24)%Z with (2 ^ 23 + 2 ^ 23)%Z. lia.
    - rewrite Ed. ring. }
  unfold fadd. rewrite (binary32_comp _ (inject_Z b)).
  - apply binary32_Z. change (2 ^ 24)%Z with (2 ^ 23 + 2 ^ 23)%Z. lia.
  - rewrite Ep. unfold Z.sub. rewrite inject_Z_plus, inject_Z_opp. ring.
Qed.

Lemma coordinate_between (a b i : Z) :
  (1 <= i <= 10)%Z -> (Z.abs a <= 2 ^ 23)%Z -> (Z.abs b <= 2 ^ 23)%Z ->
  inject_Z a <=
    fadd (inject_Z a) (fmul (fsub (inject_Z b) (inject_Z a)) (fdiv (inject_Z i) 10))
    <= inject_Z b \/
  inject_Z b <=
    fadd (inject_Z a) (fmul (fsub (inject_Z b) (inject_Z a)) (fdiv (inject_Z i) 10))
    <= inject_Z a.
Proof.
  intros Hi Ha Hb. pose proof (fsub_Z a b Ha Hb) as Ed.
  pose proof (parameters i Hi) as [Ht0 Ht1].
  set (t := fdiv (inject_Z i) 10) in *.
  set (d := fsub (inject_Z b) (inject_Z a)) in *.
  assert (Hab : (Z.abs (b - a) <= 2 ^ 24)%Z)
    by (change (2 ^ 24)%Z with (2 ^ 23 + 2 ^ 23)%Z; lia).
  assert (HA : (Z.abs a <= 2 ^ 24)%Z)
    by (change (2 ^ 24)%Z with (2 ^ 23 + 2 ^ 23)%Z; lia).
  assert (HB : (Z.abs b <= 2 ^ 24)%Z)
    by (change (2 ^ 24)%Z with (2 ^ 23 + 2 ^ 23)%Z; lia).
  pose proof (binary32_Z 0 ltac:(simpl; lia)) as E0.
  pose proof (binary32_Z (b - a) Hab) as ED.
  pose proof (binary32_Z a HA) as EA. pose proof (binary32_Z b HB) as EB.
  assert (Eba : inject_Z (b - a) == inject_Z b - inject_Z a)
    by (unfold Z.sub; rewrite inject_Z_plus, inject_Z_opp; reflexivity).
  unfold fadd, fmul.
  destruct (Z_le_gt_dec a b) as [Hle|Hgt].
  - left.
    assert (HD : 0 <= inject_Z (b - a)) by (change 0 with (inject_Z 0); rewrite <- Zle_Qle; lia).
    assert (Hp0 : 0 <= binary32 (d * t)).
    { apply Qle_trans with (binary32 (inject_Z 0)); [rewrite E0; apply Qle_refl|].
      apply binary32_mono. change (inject_Z 0) with 0. nra. }
    assert (Hp1 : binary32 (d * t) <= inject_Z (b - a)).
    { apply Qle_trans with (binary32 (inject_Z (b - a))); [|rewrite ED; apply Qle_refl].
      apply binary32_mono. nra. }
    split.
    + apply Qle_trans with (binary32 (inject_Z a)); [rewrite EA; apply Qle_refl|].
      apply binary32_mono. lra.
    + apply Qle_trans with (binary32 (inject_Z b)); [|rewrite EB; apply Qle_refl].
      apply binary32_mono. lra.
  - right.
    assert (HD : inject_Z (b - a) <= 0) by (change 0 with (inject_Z 0); rewrite <- Zle_Qle; lia).
    assert (Hp0 : binary32 (d * t) <= 0).
    { apply Qle_trans with (binary32 (inject_Z 0)); [|rewrite E0; apply Qle_refl].
      apply binary32_mono. change (inject_Z 0) with 0. nra. }
    assert (Hp1 : inject_Z (b - a) <= binary32 (d * t)).
    { apply Qle_trans with (binary32 (inject_Z (b - a))); [rewrite ED; apply Qle_refl|].
      apply binary32_mono. nra. }
    split.
    + apply Qle_trans with (binary32 (inject_Z b)); [rewrite EB; apply Qle_refl|].
      apply binary32_mono. lra.
    + apply Qle_trans with (binary32 (inject_Z a)); [|rewrite EA; apply Qle_refl].
      apply binary32_mono. lra.
Qed.

(** The last sample of the segment between two pixels is the end. *)
Lemma sample_end (ax ay bx by_ : Z) :
  (Z.abs ax <= 2 ^ 23)%Z -> (Z.abs ay <= 2 ^ 23)%Z ->
  (Z.abs bx <= 2 ^ 23)%Z -> (Z.abs by_ <= 2 ^ 23)%Z ->
  peq (sample (mkPoint (inject_Z ax) (inject_Z ay))
              (mkPoint (inject_Z bx) (inject_Z by_)) 10)
      (mkPoint (inject_Z bx) (inject_Z by_)).
Proof.
  intros Hax Hay Hbx Hby. unfold sample, padd, pscale, psub, peq. simpl.
  split; apply coordinate_end; assumption.
Qed.

Lemma collisionFree_end (g : Globals) (ax ay bx by_ : Z) :
  (Z.abs ax <= 2 ^ 23)%Z -> (Z.abs ay <= 2 ^ 23)%Z ->
  (Z.abs bx <= 2 ^ 23)%Z -> (Z.abs by_ <= 2 ^ 23)%Z ->
  collisionFree g (mkPoint (inject_Z ax) (inject_Z ay))
                  (mkPoint (inject_Z bx) (inject_Z by_)) = true ->
  isInsideGrid g (mkPoint (inject_Z bx) (inject_Z by_)) = true /\
  isObstacle g (mkPoint (inject_Z bx) (inject_Z by_)) = false.
Proof.
  intros Hax Hay Hbx Hby H. unfold collisionFree in H.
  rewrite collisionFree_loop_true in H.
  destruct (H 10%Z) as [Hin Hob]; [apply In_rounds; lia|].
  pose proof (sample_end ax ay bx by_ Hax Hay Hbx Hby) as E.
  rewrite <- (isInsideGrid_comp g _ _ E), <- (isObstacle_comp g _ _ E). auto.
Qed.

(** X3.  A segment between two pixels that passes [collisionFree] ends
    inside the grid and outside the obstacles: the last sample is the end.
    Between two floats that are no pixels the last sample need not be the
    end: with the cell (0, 0) an obstacle, the segment from (300, 50) to
    (99.9999924, 50) passes, its last sample being (100, 50), and it ends in
    the obstacle. *)
Theorem collisionFree_end_free :
  (forall g ax ay bx by_,
     (Z.abs ax <= 2 ^ 23)%Z -> (Z.abs ay <= 2 ^ 23)%Z ->
     (Z.abs bx <= 2 ^ 23)%Z -> (Z.abs by_ <= 2 ^ 23)%Z ->
     collisionFree g (mkPoint (inject_Z ax) (inject_Z ay))
                     (mkPoint (inject_Z bx) (inject_Z by_)) = true ->
     isInsideGrid g (mkPoint (inject_Z bx) (inject_Z by_)) = true /\
     isObstacle g (mkPoint (inject_Z bx) (inject_Z by_)) = false) /\
  (binary32 (13107199 # 131072) = 13107199 # 131072 /\
   sample (mkPoint 300 50) (mkPoint (13107199 # 131072) 50) 10 = mkPoint 100 50 /\
   collisionFree corner_blocked (mkPoint 300 50) (mkPoint (13107199 # 131072) 50) = true /\
   isObstacle corner_blocked (mkPoint (13107199 # 131072) 50) = true).
Proof.
  split; [exact collisionFree_end|].
  split; [vm_compute; reflexivity|]. split; [vm_compute; reflexivity|].
  split; vm_compute; reflexivity.
Qed.

(** The index of a coordinate between two coordinates of one index. *)
Lemma index_between (cs : Q) (a s b : Q) :
  (a <= s <= b \/ b <= s <= a) ->
  Qtrunc (a / cs) = Qtrunc (b / cs) -> Qtrunc (s / cs) = Qtrunc (a / cs).
Proof.
  intros Hs E. unfold Qdiv in *.
  assert (Hm : forall x y, x <= y ->
            (Qtrunc (x * / cs) <= Qtrunc (y * / cs) \/
             Qtrunc (y * / cs) <= Qtrunc (x * / cs))%Z).
  { intros x y Hxy. destruct (Qlt_le_dec (/ cs) 0) as [Hc|Hc].
    - right. apply Qtrunc_mono. nra.
    - left. apply Qtrunc_mono. nra. }
  destruct (Qlt_le_dec (/ cs) 0) as [Hc|Hc].
  - assert (Hanti : forall x y, x <= y -> (Qtrunc (y * / cs) <= Qtrunc (x * / cs))%Z)
      by (intros x y Hxy; apply Qtrunc_mono; nra).
    destruct Hs as [[H1 H2]|[H1 H2]];
      pose proof (Hanti _ _ H1); pose proof (Hanti _ _ H2); lia.
  - assert (Hmono : forall x y, x <= y -> (Qtrunc (x * / cs) <= Qtrunc (y * / cs))%Z)
      by (intros x y Hxy; apply Qtrunc_mono; nra).
    destruct Hs as [[H1 H2]|[H1 H2]];
      pose proof (Hmono _ _ H1); pose proof (Hmono _ _ H2); lia.
Qed.

(** X4.  Two pixels of one cell that is inside the grid and no obstacle are
    joined by a segment that passes [collisionFree]: every sample lies
    between the two.  Between two floats that are no pixels a sample can
    leave the cell: with the cell (0, 1) an obstacle, the points
    (0.0000114, 50) and (99.9999924, 50) lie in the free cell (0, 0), the
    last sample from the one to the other is (100, 50), and the segment does
    not pass. *)
Theorem collisionFree_same_cell :
  (forall g ax ay bx by_,
     (Z.abs ax <= 2 ^ 23)%Z -> (Z.abs ay <= 2 ^ 23)%Z ->
     (Z.abs bx <= 2 ^ 23)%Z -> (Z.abs by_ <= 2 ^ 23)%Z ->
     isObstacle g (mkPoint (inject_Z ax) (inject_Z ay)) = false ->
     cellOf g (mkPoint (inject_Z ax) (inject_Z ay)) =
       cellOf g (mkPoint (inject_Z bx) (inject_Z by_)) ->
     collisionFree g (mkPoint (inject_Z ax) (inject_Z ay))
                     (mkPoint (inject_Z bx) (inject_Z by_)) = true) /\
  (binary32 (3 # 262144) = 3 # 262144 /\
   binary32 (13107199 # 131072) = 13107199 # 131072 /\
   isObstacle second_blocked (mkPoint (3 # 262144) 50) = false /\
   cellOf second_blocked (mkPoint (3 # 262144) 50) =
     cellOf second_blocked (mkPoint (13107199 # 131072) 50) /\
   sample (mkPoint (3 # 262144) 50) (mkPoint (13107199 # 131072) 50) 10 =
     mkPoint 100 50 /\
   collisionFree second_blocked (mkPoint (3 # 262144) 50)
     (mkPoint (13107199 # 131072) 50) = false).
Proof.
  split.
  - intros g ax ay bx by_ Hax Hay Hbx Hby Hob Hcell.
    set (a := mkPoint (inject_Z ax) (inject_Z ay)) in *.
    set (b := mkPoint (inject_Z bx) (inject_Z by_)) in *.
    unfold collisionFree. apply collisionFree_loop_true.
    intros i Hi. apply In_rounds in Hi.
    assert (Hs : cellOf g (sample a b i) = cellOf g a).
    { unfold cellOf in *. injection Hcell as Hr Hc.
      unfold sample, padd, pscale, psub, a, b in *. simpl in *. f_equal.
      - apply (index_between _ _ _ (inject_Z by_));
          [apply coordinate_between; assumption|exact Hr].
      - apply (index_between _ _ _ (inject_Z bx));
          [apply coordinate_between; assumption|exact Hc]. }
    assert (Hin : isInsideGrid g a = true).
    { unfold isObstacle in Hob. destruct (isInsideGrid g a); [reflexivity|discriminate]. }
    assert (Hin' : isInsideGrid g (sample a b i) = true).
    { unfold isInsideGrid in *. rewrite Hs. exact Hin. }
    split; [exact Hin'|].
    unfold isObstacle in *. rewrite Hin' , Hs. rewrite Hin in Hob. exact Hob.
  - split; [vm_compute; reflexivity|]. split; [vm_compute; reflexivity|].
    split; [vm_compute; reflexivity|]. split; [vm_compute; reflexivity|].
    split; vm_compute; reflexivity.
Qed.

(** ** More on the loops of a round *)

Section RoundFacts.

Variable g : Globals.
Variable sqrtQ : Q -> Q.
Variable logQ : Q -> Q.
Variable rand : nat -> Point.

Local Abbreviation dist' := (dist sqrtQ).
Local Abbreviation cf := (collisionFree g).

(** What the search has found after the nodes below [j]: nothing nearer than
    the first bound, or the first of the nearest nodes. *)
Lemma nearest_loop_spec (k j : nat) (tree : list Node) (randPt : Point)
    (d1 : Q) (n0 : Z) (d0 : Q) (n : Z) (d : Q) :
  (forall i, (i < j)%nat -> d0 <= dist' (point (tree !!! i)) randPt) ->
  (n0 = (-1)%Z /\ d0 = d1 \/
   exists m, n0 = Z.of_nat m /\ (m < j)%nat /\
     d0 = dist' (point (tree !!! m)) randPt /\ d0 < d1 /\
     forall i, (i < m)%nat -> d0 < dist' (point (tree !!! i)) randPt) ->
  nearest_loop sqrtQ k j tree randPt n0 d0 = (n, d) ->
  (forall i, (i < j + k)%nat -> d <= dist' (point (tree !!! i)) randPt) /\
  (n = (-1)%Z /\ d = d1 \/
   exists m, n = Z.of_nat m /\ (m < j + k)%nat /\
     d = dist' (point (tree !!! m)) randPt /\ d < d1 /\
     forall i, (i < m)%nat -> d < dist' (point (tree !!! i)) randPt).
Proof.
  revert j n0 d0. induction k as [|k IH]; intros j n0 d0 Hall Hbest; simpl.
  - intros [= <- <-]. rewrite Nat.add_0_r. auto.
  - replace (j + S k)%nat with (S j + k)%nat by lia.
    destruct (Qltb (dist' (point (tree !!! j)) randPt) d0) eqn:Hlt.
    + apply Qltb_lt in Hlt. apply IH.
      * intros i Hi. destruct (Nat.eq_dec i j) as [->|Hne]; [apply Qle_refl|].
        apply Qlt_le_weak, Qlt_le_trans with d0; [exact Hlt|]. apply Hall. lia.
      * right. exists j. split; [reflexivity|]. split; [lia|].
        split; [reflexivity|]. split.
        -- destruct Hbest as [[_ ->]|(m & _ & _ & _ & Hd & _)]; [exact Hlt|].
           apply Qlt_trans with d0; assumption.
        -- intros i Hi. apply Qlt_le_trans with d0; [exact Hlt|]. apply Hall, Hi.
    + apply Qltb_ge in Hlt. apply IH.
      * intros i Hi. destruct (Nat.eq_dec i j) as [->|Hne]; [exact Hlt|].
        apply Hall. lia.
      * destruct Hbest as [H|(m & Hm1 & Hm2 & Hm3)]; [left; exact H|].
        right. exists m. split; [exact Hm1|]. split; [lia|exact Hm3].
Qed.

(** X5.  The search of the nearest node returns [-1] when no node is nearer
    than [1e9]; otherwise it returns the node at the least distance from the
    drawn point and that distance, and of several such nodes the first. *)
Theorem nearest_loop_nearest (tree : list Node) (randPt : Point) (n : Z) (d : Q) :
  nearest_loop sqrtQ (length tree) 0 tree randPt (-1) (inject_Z (10 ^ 9)) = (n, d) ->
  (forall i, (i < length tree)%nat -> d <= dist' (point (tree !!! i)) randPt) /\
  (n = (-1)%Z /\ d = inject_Z (10 ^ 9) \/
   exists m, n = Z.of_nat m /\ (m < length tree)%nat /\
     d = dist' (point (tree !!! m)) randPt /\ d < inject_Z (10 ^ 9) /\
     forall i, (i < m)%nat -> d < dist' (point (tree !!! i)) randPt).
Proof.
  intros H.
  apply (nearest_loop_spec (length tree) 0 tree randPt (inject_Z (10 ^ 9))) in H.
  - exact H.
  - intros i Hi. lia.
  - left. split; reflexivity.
Qed.



End RoundFacts.

(** ** More on the rounds *)

Section GrowthFacts.

Variable g : Globals.
Variable sqrtQ : Q -> Q.
Variable logQ : Q -> Q.
Variable rand : nat -> Point.

Local Abbreviation dist' := (dist sqrtQ).
Local Abbreviation cf := (collisionFree g).
Local Abbreviation iteration' := (iteration g sqrtQ logQ rand).
Local Abbreviation rrt_loop' := (rrt_loop g sqrtQ logQ rand).

Lemma rewire_loop_length (k j : nat) (tree : list Node) (newIdx : nat)
    (newPt : Point) (bestCost radius : Q) :
  length (rewire_loop g sqrtQ k j tree newIdx newPt bestCost radius) =
  length tree.
Proof.
  revert j tree. induction k as [|k IH]; intros j tree; simpl; [reflexivity|].
  rewrite IH. apply rewire_at_length.
Qed.

(** What [rewire_at] leaves of node [j]: the position, and the parent and
    the cost unless the cost goes down. *)
Lemma rewire_at_node (j : nat) (tree : list Node) (newIdx : nat)
    (newPt : Point) (bestCost radius : Q) :
  (j < length tree)%nat ->
  point (rewire_at g sqrtQ j tree newIdx newPt bestCost radius !!! j) =
    point (tree !!! j) /\
  cost (rewire_at g sqrtQ j tree newIdx newPt bestCost radius !!! j) <=
    cost (tree !!! j) /\
  (rewire_at g sqrtQ j tree newIdx newPt bestCost radius !!! j = tree !!! j \/
   j <> newIdx /\
   parent (rewire_at g sqrtQ j tree newIdx newPt bestCost radius !!! j) =
     Z.of_nat newIdx /\
   cost (rewire_at g sqrtQ j tree newIdx newPt bestCost radius !!! j) <
     cost (tree !!! j)).
Proof.
  intros Hj.
  destruct (rewire_at_cases g sqrtQ j tree newIdx newPt bestCost radius)
    as [->|(Hne & _ & Hless & ->)].
  - split; [reflexivity|]. split; [apply Qle_refl|]. left. reflexivity.
  - rewrite list_lookup_total_insert_eq by exact Hj. simpl.
    split; [reflexivity|]. split; [lra|]. right. auto.
Qed.

(** What a round does to the tree: one node more, at the position the round
    reports; the nodes that were there keep their positions, and each keeps
    its parent and cost or hangs on the new node at a lower cost. *)
Lemma iteration_nodes (i : nat) (tree tree' : list Node) (newIdx : nat)
    (newPt : Point) :
  iteration' i tree = Inserted tree' newIdx newPt ->
  newIdx = length tree /\ length tree' = S (length tree) /\
  point (tree' !!! newIdx) = newPt /\
  forall j, (j < length tree)%nat ->
    point (tree' !!! j) = point (tree !!! j) /\
    cost (tree' !!! j) <= cost (tree !!! j) /\
    (tree' !!! j = tree !!! j \/
     parent (tree' !!! j) = Z.of_nat newIdx /\
     cost (tree' !!! j) < cost (tree !!! j)).
Proof.
  unfold iteration.
  destruct (candidate _ _ _ _ _ _) as [| |pt bp bc r] eqn:Hc; try discriminate.
  intros [= <- <- <-].
  set (t0 := tree ++ [mkNode pt bp bc]).
  assert (HL : length t0 = S (length tree))
    by (unfold t0; rewrite length_app; simpl; lia).
  split; [reflexivity|]. split; [rewrite rewire_loop_length; exact HL|].
  split.
  - rewrite rewire_loop_lookup.
    rewrite bool_decide_eq_true_2 by lia.
    unfold rewire_at. rewrite Nat.eqb_refl.
    unfold t0. rewrite lookup_total_app_r, Nat.sub_diag by lia. reflexivity.
  - intros j Hj. rewrite rewire_loop_lookup.
    rewrite bool_decide_eq_true_2 by lia.
    assert (Hj0 : t0 !!! j = tree !!! j)
      by (unfold t0; apply lookup_total_app_l; exact Hj).
    destruct (rewire_at_node j t0 (length tree) pt bc r) as (Hp & Hcost & Hor);
      [lia|].
    rewrite Hj0 in Hp, Hcost, Hor. split; [exact Hp|]. split; [exact Hcost|].
    destruct Hor as [E|(_ & Hpar & Hless)]; [left; exact E|right; auto].
Qed.

(** The tree [t'] comes from the tree [t] by appending nodes and lowering
    costs. *)
Lemma rrt_loop_grows (n i : nat) (tree : list Node) :
  match rrt_loop' n i tree with
  | PathFound tree' _ | Exhausted tree' =>
      (length tree <= length tree' <= length tree + n)%nat /\
      forall j, (j < length tree)%nat ->
        point (tree' !!! j) = point (tree !!! j) /\
        cost (tree' !!! j) <= cost (tree !!! j)
  | Aborted => True
  end.
Proof.
  revert i tree. induction n as [|n IH]; intros i tree; simpl.
  - split; [lia|]. intros j Hj. split; [reflexivity|apply Qle_refl].
  - destruct (iteration' i tree) as [|tree1 newIdx newPt|] eqn:Hit.
    + specialize (IH (S i) tree).
      destruct (rrt_loop' n (S i) tree); [| |exact I];
        (destruct IH as [Hlen Hn]; split; [lia|exact Hn]).
    + destruct (iteration_nodes _ _ _ _ _ Hit) as (-> & Hlen1 & _ & Hold).
      destruct (captured g sqrtQ newPt).
      * split; [lia|]. intros j Hj. destruct (Hold j Hj) as (Hp & Hc & _). auto.
      * specialize (IH (S i) tree1).
        destruct (rrt_loop' n (S i) tree1); [| |exact I];
          (destruct IH as [Hlen Hn]; split; [lia|]; intros j Hj;
           destruct (Hold j Hj) as (Hp & Hc & _);
           destruct (Hn j ltac:(lia)) as [Hp' Hc'];
           split; [congruence|lra]).
    + exact I.
Qed.

(** X7.  The tree only grows, by at most one node a round, and a node never
    moves: when [n] rounds lead from [tree] to [tree'], every node of [tree]
    is a node of [tree'] at the same index and position. *)
Theorem tree_append_only (n i : nat) (tree tree' : list Node) :
  rrt_loop' n i tree = Exhausted tree' \/
  (exists goalIdx, rrt_loop' n i tree = PathFound tree' goalIdx) ->
  (length tree <= length tree' <= length tree + n)%nat /\
  forall j, (j < length tree)%nat -> point (tree' !!! j) = point (tree !!! j).
Proof.
  intros H. pose proof (rrt_loop_grows n i tree) as Hg.
  destruct H as [H|[goalIdx H]]; rewrite H in Hg; destruct Hg as [Hlen Hn];
    (split; [exact Hlen|intros j Hj; apply Hn, Hj]).
Qed.

(** X8.  The cost of a node never goes up: when [n] rounds lead from [tree]
    to [tree'], every node of [tree] costs in [tree'] at most what it cost. *)
Theorem cost_never_increases (n i : nat) (tree tree' : list Node) (j : nat) :
  rrt_loop' n i tree = Exhausted tree' \/
  (exists goalIdx, rrt_loop' n i tree = PathFound tree' goalIdx) ->
  (j < length tree)%nat ->
  cost (tree' !!! j) <= cost (tree !!! j).
Proof.
  intros H Hj. pose proof (rrt_loop_grows n i tree) as Hg.
  destruct H as [H|[goalIdx H]]; rewrite H in Hg; destruct Hg as [_ Hn];
    apply Hn, Hj.
Qed.

End GrowthFacts.

Section NodeFacts.

Variable g : Globals.
Variable sqrtQ : Q -> Q.
Variable logQ : Q -> Q.
Variable rand : nat -> Point.

Local Abbreviation cf := (collisionFree g).
Local Abbreviation iteration' := (iteration g sqrtQ logQ rand).
Local Abbreviation rrt_loop' := (rrt_loop g sqrtQ logQ rand).



End NodeFacts.

(** ** More on the path *)

Lemma head_rev (A : Type) (l : list A) : head (rev l) = last l.
Proof.
  induction l as [|x [|y l] IH]; [reflexivity|reflexivity|].
  rewrite last_cons_cons, <- IH. simpl.
  destruct (rev l ++ [y]) eqn:E; [|reflexivity].
  apply app_eq_nil in E. destruct E as [_ E]. discriminate E.
Qed.

Lemma last_rev (A : Type) (l : list A) : last (rev l) = head l.
Proof. destruct l as [|x l]; [reflexivity|]. simpl. apply last_snoc. Qed.

Section EndFacts.

Variable g : Globals.
Variable sqrtQ : Q -> Q.
Variable logQ : Q -> Q.
Variable rand : nat -> Point.

Hypothesis sqrtQ_nonneg : forall x, 0 <= sqrtQ x.

(** A chain ends in the node 0. *)
Lemma chain_last (tree : list Node) (j : nat) (l : list nat) :
  well_formed g sqrtQ tree -> chain tree j l -> last l = Some 0%nat.
Proof.
  intros Hwf. induction 1 as [j Hj Hp|j p l Hj Hp Hc IH].
  - destruct j as [|j]; [reflexivity|].
    destruct (wf_edge _ _ _ Hwf (S j)) as (p & Hp' & _); [lia|].
    rewrite Hp in Hp'. lia.
  - destruct (chain_head _ _ _ Hc) as (l' & ->).
    rewrite last_cons_cons. exact IH.
Qed.

(** The node 0 stays at the start. *)
Lemma tree_state_root (tree : list Node) :
  tree_state g sqrtQ logQ rand tree -> point (tree !!! 0%nat) = startPt g.
Proof.
  assert (Hat : forall n t, tree_at g sqrtQ logQ rand n t ->
            (0 < length t)%nat /\ point (t !!! 0%nat) = startPt g).
  { intros n t H. unfold tree_at in H.
    pose proof (rrt_loop_grows g sqrtQ logQ rand n 0 (initial_tree g)) as Hg.
    rewrite H in Hg. destruct Hg as [[Hlen _] Hn]. simpl in Hlen.
    split; [lia|]. destruct (Hn 0%nat) as [-> _]; [simpl; lia|reflexivity]. }
  intros [n t Hn H|n t newPt bp bc r k Hn H Hc Hk].
  - apply (Hat n t H).
  - destruct (Hat n t H) as [Hlen Hroot].
    rewrite rewire_loop_lookup.
    assert (H0 : (t ++ [mkNode newPt bp bc]) !!! 0%nat = t !!! 0%nat)
      by (apply lookup_total_app_l; exact Hlen).
    destruct (bool_decide (0 <= 0 < 0 + k)%nat); [|rewrite H0; exact Hroot].
    destruct (rewire_at_node g sqrtQ 0 (t ++ [mkNode newPt bp bc]) (length t)
                newPt bc r) as [-> _]; [rewrite length_app; simpl; lia|].
    rewrite H0. exact Hroot.
Qed.

Lemma raw_path_from_start (tree : list Node) (goalIdx : nat) :
  tree_state g sqrtQ logQ rand tree -> (goalIdx < length tree)%nat ->
  exists path,
    extractPath (length tree) tree (Z.of_nat goalIdx) = Some path /\
    head path = Some (startPt g) /\
    last path = Some (point (tree !!! goalIdx)).
Proof.
  intros Hst Hj.
  pose proof (tree_state_root tree Hst) as Hroot.
  apply (tree_state_well_formed g sqrtQ logQ rand sqrtQ_nonneg) in Hst.
  destruct (wf_chain _ _ _ Hst goalIdx Hj) as (l & Hl).
  pose proof (chain_length _ _ _ Hl) as Hlen.
  exists (rev (map (fun a => point (tree !!! a)) l)).
  split; [apply extractPath_chain; assumption|]. split.
  - rewrite head_rev.
    change (map (fun a => point (tree !!! a)) l)
      with ((fun a => point (tree !!! a)) <$> l).
    rewrite fmap_last, (chain_last _ _ _ Hst Hl). simpl. rewrite Hroot. reflexivity.
  - rewrite last_rev. destruct (chain_head _ _ _ Hl) as (l' & ->). reflexivity.
Qed.

(** X11.  The raw path of a node runs from the start to the node: its first
    point is the centre of the start cell and its last point is the position
    of the node. *)
Theorem raw_path_ends (tree : list Node) (goalIdx : nat) :
  tree_state g sqrtQ logQ rand tree -> (goalIdx < length tree)%nat ->
  exists path,
    extractPath (length tree) tree (Z.of_nat goalIdx) = Some path /\
    head path = Some (startPt g) /\
    last path = Some (point (tree !!! goalIdx)).
Proof. apply raw_path_from_start. Qed.

End EndFacts.


(** ** More on the smoothing *)

Section ShortcutFacts.

Variable g : Globals.

Local Abbreviation cf := (collisionFree g).

(** X13.  When the segment from the first point of a path to its last passes
    [collisionFree], the smoothing returns these two points. *)
Theorem smooth_line_of_sight (path : list Point) (fuel : nat) :
  (2 <= length path)%nat -> (1 <= fuel)%nat ->
  cf (path !!! 0%nat) (path !!! (length path - 1)%nat) = true ->
  smooth g fuel path = Some [path !!! 0%nat; path !!! (length path - 1)%nat].
Proof.
  intros Hlen Hfuel Hcf. unfold smooth.
  assert (Hscan : scan g path 0 (length path - 1) = (length path - 1)%nat).
  { apply scan_unique; [lia|exact Hcf|]. intros j' Hj'. lia. }
  rewrite (smooth_loop_steps g path 0 [(length path - 1)%nat]);
    [reflexivity| |simpl; lia].
  rewrite <- Hscan at 1. apply steps_next; [lia|].
  rewrite Hscan. apply steps_done. lia.
Qed.

(** The points of a trace, in the order of the path. *)
Lemma steps_sublist (path : list Point) (i : nat) (js : list nat) :
  steps g path i js -> (i < length path)%nat ->
  map (fun k => path !!! k) (i :: js) `sublist_of` drop i path.
Proof.
  induction 1 as [i Hi|i js Hi Hs IH]; intros Hlt.
  - simpl. rewrite (drop_S path (path !!! i) i)
      by (apply list_lookup_lookup_total_lt; exact Hlt).
    apply sublist_skip, sublist_nil_l.
  - pose proof (steps_advance g _ _ _ (steps_next g path i js Hi Hs) Hi) as Hne.
    pose proof (scan_ge g path i (length path - 1)) as Hge.
    pose proof (scan_le g path i (length path - 1)) as Hle.
    set (j := scan g path i (length path - 1)) in *.
    change (map (fun k => path !!! k) (i :: j :: js))
      with (path !!! i :: map (fun k => path !!! k) (j :: js)).
    rewrite (drop_S path (path !!! i) i)
      by (apply list_lookup_lookup_total_lt; exact Hlt).
    apply sublist_skip.
    transitivity (drop j path); [apply IH; lia|].
    replace j with (S i + (j - S i))%nat by lia.
    rewrite <- drop_drop. apply sublist_drop.
Qed.

(** X14.  What the smoothing returns is a subsequence of the path: points of
    the path, in the order of the path. *)
Theorem smooth_sublist (path smoothed : list Point) (fuel : nat) :
  path <> [] -> smooth g fuel path = Some smoothed ->
  smoothed `sublist_of` path.
Proof.
  intros Hne H. unfold smooth in H.
  apply smooth_loop_Some in H. destruct H as (js & Hjs & ->).
  change ([path !!! 0%nat] ++ map (fun k => path !!! k) js)
    with (map (fun k => path !!! k) (0%nat :: js)).
  change path with (drop 0 path) at 2.
  apply steps_sublist; [exact Hjs|].
  destruct path; [contradiction|simpl; lia].
Qed.

End ShortcutFacts.

(** ** More on the grid editor *)

Lemma toggle_toggle (cell : Z * Z) (obs : gset (Z * Z)) :
  toggle cell (toggle cell obs) = obs.
Proof.
  unfold toggle. destruct (bool_decide (cell ∈ obs)) eqn:E.
  - apply bool_decide_eq_true_1 in E.
    rewrite bool_decide_eq_false_2.
    + apply set_eq. intros x.
      rewrite elem_of_union, elem_of_difference, elem_of_singleton.
      destruct (decide (x = cell)) as [->|Hne]; tauto.
    + rewrite elem_of_difference, elem_of_singleton. tauto.
  - apply bool_decide_eq_false_1 in E.
    rewrite bool_decide_eq_true_2.
    + apply set_eq. intros x.
      rewrite elem_of_difference, elem_of_union, elem_of_singleton.
      destruct (decide (x = cell)) as [->|Hne]; tauto.
    + rewrite elem_of_union, elem_of_singleton. tauto.
Qed.

(** X15.  Undo and redo are inverse to each other: the key [r] after the key
    [u] gives back all the globals when there is something to undo, and the
    key [u] after the key [r] does when there is something to redo. *)
Theorem undo_redo_inverse (g : Globals) :
  (undoStack g <> [] -> keyPressed Key_r (keyPressed Key_u g) = g) /\
  (redoStack g <> [] -> keyPressed Key_u (keyPressed Key_r g) = g).
Proof.
  destruct g as [n cs st gl obs undo redo sel conf]. split; simpl.
  - destruct undo as [|c undo]; [contradiction|]. intros _.
    unfold keyPressed. simpl. rewrite toggle_toggle. reflexivity.
  - destruct redo as [|c redo]; [contradiction|]. intros _.
    unfold keyPressed. simpl. destruct undo; simpl; rewrite toggle_toggle; reflexivity.
Qed.

(** X16.  The key [u] after a left click that has toggled a cell gives back
    the obstacles and the undo stack of before the click; the redo stack of
    before the click is lost, it holds the clicked cell alone. *)
Theorem click_undo (g : Globals) (x y : Z) :
  mouseCallback LBUTTONDOWN x y g <> g ->
  obstacles (keyPressed Key_u (mouseCallback LBUTTONDOWN x y g)) = obstacles g /\
  undoStack (keyPressed Key_u (mouseCallback LBUTTONDOWN x y g)) = undoStack g /\
  redoStack (keyPressed Key_u (mouseCallback LBUTTONDOWN x y g)) =
    [(Z.quot y (cellSize g), Z.quot x (cellSize g))].
Proof.
  unfold mouseCallback.
  destruct ((gridSize g <=? Z.quot x (cellSize g))%Z ||
            (gridSize g <=? Z.quot y (cellSize g))%Z); [contradiction|].
  destruct (bool_decide _ || bool_decide _); [contradiction|].
  intros _. unfold keyPressed. simpl. rewrite toggle_toggle. auto.
Qed.

Lemma setup_configured (evs : list Event) (g : Globals) :
  (configured g = true ->
   fst (start g) <> (-1)%Z /\ fst (goal g) <> (-1)%Z) ->
  configured (setup evs g) = true ->
  fst (start (setup evs g)) <> (-1)%Z /\ fst (goal (setup evs g)) <> (-1)%Z.
Proof.
  revert g. induction evs as [|e evs IH]; intros g Hg; simpl; [exact Hg|].
  destruct (configured g) eqn:Hc; [intros _; apply Hg; reflexivity|].
  apply IH. intros Hc'.
  destruct e as [ev x y|k];
    [rewrite handle_other_configured in Hc' by discriminate; congruence|].
  destruct k;
    try (rewrite handle_other_configured in Hc' by discriminate; congruence).
  simpl in *. unfold keyPressed in *.
  destruct (negb (fst (start g) =? -1)%Z && negb (fst (goal g) =? -1)%Z) eqn:E.
  - simpl. apply andb_true_iff in E. destruct E as [E1 E2].
    apply negb_true_iff in E1, E2. apply Z.eqb_neq in E1, E2. auto.
  - congruence.
Qed.

(** X17.  When the setup loop is left, a start and a goal have been picked:
    [configured] is set only with [start.x != -1] and [goal.x != -1]. *)
Theorem configured_picked (n : Z) (evs : list Event) :
  configured (configure n evs) = true ->
  fst (start (configure n evs)) <> (-1)%Z /\
  fst (goal (configure n evs)) <> (-1)%Z.
Proof.
  unfold configure. apply setup_configured. simpl. discriminate.
Qed.

Lemma handle_start_kept (e : Event) (g : Globals) :
  selectingStart g = false ->
  start (handle e g) = start g /\ selectingStart (handle e g) = false.
Proof.
  intros Hsel. destruct e as [ev x y|k]; simpl.
  - unfold mouseCallback.
    destruct ((gridSize g <=? Z.quot x (cellSize g))%Z ||
              (gridSize g <=? Z.quot y (cellSize g))%Z); [auto|].
    destruct ev; [| |auto].
    + destruct (bool_decide _ || bool_decide _); auto.
    + rewrite Hsel. auto.
  - unfold keyPressed. destruct k; [| | |auto].
    + destruct (undoStack g); auto.
    + destruct (redoStack g); auto.
    + destruct (negb _ && negb _); auto.
Qed.

(** X18.  The start is picked once: after the first right click that picks
    it ([selectingStart] is false), no event changes the start; the later
    right clicks move the goal. *)
Theorem start_picked_once (evs : list Event) (g : Globals) :
  selectingStart g = false ->
  start (setup evs g) = start g /\ selectingStart (setup evs g) = false /\
  (forall x y,
     (Z.quot x (cellSize g) < gridSize g)%Z ->
     (Z.quot y (cellSize g) < gridSize g)%Z ->
     goal (mouseCallback RBUTTONDOWN x y g) =
       (Z.quot x (cellSize g), Z.quot y (cellSize g))).
Proof.
  intros Hsel. split; [|split].
  - revert g Hsel. induction evs as [|e evs IH]; intros g Hsel; simpl; [reflexivity|].
    destruct (configured g); [reflexivity|].
    destruct (handle_start_kept e g Hsel) as [Hs Hsel'].
    rewrite (IH _ Hsel'). exact Hs.
  - revert g Hsel. induction evs as [|e evs IH]; intros g Hsel; simpl; [exact Hsel|].
    destruct (configured g); [exact Hsel|].
    apply IH, (handle_start_kept e g Hsel).
  - intros x y Hx Hy. unfold mouseCallback.
    rewrite orb_false_intro by (apply Z.leb_gt; assumption).
    rewrite Hsel. reflexivity.
Qed.

(** The cells that the editor holds are cells of the grid. *)
Lemma handle_cells_inside (e : Event) (g : Globals) (P : Z * Z -> Prop) :
  (0 < cellSize g)%Z ->
  match e with
  | Mouse _ x y => (0 <= x)%Z /\ (0 <= y)%Z
  | Pressed _ => True
  end ->
  (forall c, P c <->
     (0 <= fst c < gridSize g)%Z /\ (0 <= snd c < gridSize g)%Z) ->
  ((forall c, c ∈ obstacles g -> P c) /\
   Forall P (undoStack g) /\ Forall P (redoStack g)) ->
  (forall c, c ∈ obstacles (handle e g) -> P c) /\
  Forall P (undoStack (handle e g)) /\ Forall P (redoStack (handle e g)).
Proof.
  intros Hcs He HP (Hobs & Hundo & Hredo).
  assert (Htoggle : forall c obs, P c -> (forall c', c' ∈ obs -> P c') ->
            forall c', c' ∈ toggle c obs -> P c').
  { intros c obs Hc Hall c' Hin. unfold toggle in Hin.
    destruct (bool_decide (c ∈ obs));
      [apply Hall; apply elem_of_difference in Hin; tauto|].
    apply elem_of_union in Hin. destruct Hin as [Hin|Hin]; [apply Hall, Hin|].
    apply elem_of_singleton in Hin. subst c'. exact Hc. }
  destruct e as [ev x y|k]; simpl.
  - unfold mouseCallback.
    destruct ((gridSize g <=? Z.quot x (cellSize g))%Z ||
              (gridSize g <=? Z.quot y (cellSize g))%Z) eqn:Hout; [auto|].
    apply orb_false_iff in Hout. destruct Hout as [Hx Hy].
    apply Z.leb_gt in Hx, Hy. destruct He as [Hx0 Hy0].
    assert (Hcell : P (Z.quot y (cellSize g), Z.quot x (cellSize g))).
    { apply HP. simpl.
      pose proof (Z.quot_pos x (cellSize g) Hx0 ltac:(lia)).
      pose proof (Z.quot_pos y (cellSize g) Hy0 ltac:(lia)). lia. }
    destruct ev; [| |auto].
    + destruct (bool_decide _ || bool_decide _); [auto|]. simpl.
      split; [apply Htoggle; assumption|]. split; [constructor; assumption|constructor].
    + destruct (selectingStart g); simpl; auto.
  - unfold keyPressed. destruct k; [| | |auto].
    + destruct (undoStack g) as [|c undo] eqn:Eu;
        [simpl; rewrite Eu; split; [assumption|split; assumption]|]. simpl.
      apply Forall_cons in Hundo. destruct Hundo as [Hc Hundo].
      split; [apply Htoggle; assumption|]. split; [exact Hundo|constructor; assumption].
    + destruct (redoStack g) as [|c redo] eqn:Er;
        [simpl; rewrite Er; split; [assumption|split; assumption]|]. simpl.
      apply Forall_cons in Hredo. destruct Hredo as [Hc Hredo].
      split; [apply Htoggle; assumption|]. split; [constructor; assumption|exact Hredo].
    + destruct (negb _ && negb _); simpl; tauto.
Qed.

(** X19.  With clicks at pixels that are not negative, on a grid of 1 to 500
    cells a side, every obstacle is a cell of the grid: its row and its
    column are from 0 to [gridSize - 1]. *)
Theorem obstacles_inside_grid (n : Z) (evs : list Event) (r c : Z) :
  (0 < n <= canvasSize)%Z ->
  Forall (fun e => match e with
                   | Mouse _ x y => (0 <= x)%Z /\ (0 <= y)%Z
                   | Pressed _ => True
                   end) evs ->
  (r, c) ∈ obstacles (configure n evs) ->
  (0 <= r < n)%Z /\ (0 <= c < n)%Z.
Proof.
  intros Hn Hevs Hin.
  set (P := fun c : Z * Z => (0 <= fst c < n)%Z /\ (0 <= snd c < n)%Z).
  assert (Hinv : forall evs g,
    Forall (fun e => match e with
                     | Mouse _ x y => (0 <= x)%Z /\ (0 <= y)%Z
                     | Pressed _ => True
                     end) evs ->
    gridSize g = n -> (0 < cellSize g)%Z ->
    ((forall c, c ∈ obstacles g -> P c) /\
     Forall P (undoStack g) /\ Forall P (redoStack g)) ->
    forall c, c ∈ obstacles (setup evs g) -> P c).
  { clear. intros evs. induction evs as [|e evs IH]; intros g Hevs Hg Hcs Hall; simpl.
    - apply Hall.
    - destruct (configured g); [apply Hall|].
      apply Forall_cons in Hevs. destruct Hevs as [He Hevs].
      destruct (handle_cellSize e g) as [Hg' Hcs'].
      apply IH; [exact Hevs|congruence|lia|].
      apply handle_cells_inside; [exact Hcs|exact He| |exact Hall].
      intros c. unfold P. rewrite Hg. tauto. }
  unfold configure in Hin.
  apply (Hinv evs _ Hevs) in Hin.
  - exact Hin.
  - reflexivity.
  - simpl. unfold canvasSize in *. rewrite Z.quot_div_nonneg by lia.
    apply Z.div_str_pos. lia.
  - simpl. split; [intros c' Hc'; apply not_elem_of_empty in Hc'; contradiction|].
    split; constructor.
Qed.

(** ** More runs *)

(** X2 on [open_grid]: the point (700, -3) is clamped to (499, 0). *)
Lemma clampToGrid_inside_witness :
  isInsideGrid open_grid (clampToGrid (mkPoint 700 (-3))) = true.
Proof.
  apply clampToGrid_inside; vm_compute; reflexivity.
Defined.

(** X3 on [corner_blocked]: the segment from (95, 50) to (195, 50). *)
Lemma collisionFree_end_free_witness :
  isInsideGrid corner_blocked (mkPoint 195 50) = true /\
  isObstacle corner_blocked (mkPoint 195 50) = false.
Proof.
  apply (proj1 collisionFree_end_free corner_blocked 95 50 195 50)%Z;
    [simpl; lia|simpl; lia|simpl; lia|simpl; lia|].
  vm_compute. reflexivity.
Defined.

(** X4 on [corner_blocked]: two points of the cell (0, 1). *)
Lemma collisionFree_same_cell_witness :
  collisionFree corner_blocked (mkPoint 105 20) (mkPoint 199 99) = true.
Proof.
  apply (proj1 collisionFree_same_cell corner_blocked 105 20 199 99)%Z;
    [simpl; lia|simpl; lia|simpl; lia|simpl; lia| |];
    vm_compute; reflexivity.
Defined.

(** X5 on the tree of the start of [open_grid] and the goal as the drawn
    point. *)
Lemma nearest_loop_nearest_witness :
  snd (nearest_loop sqrt6 (length (initial_tree open_grid)) 0
         (initial_tree open_grid) (goalPt open_grid) (-1) (inject_Z (10 ^ 9)))
  <= dist sqrt6 (point (initial_tree open_grid !!! 0%nat)) (goalPt open_grid).
Proof.
  apply (proj1 (nearest_loop_nearest sqrt6 (initial_tree open_grid)
                  (goalPt open_grid) _ _ (surjective_pairing _)) 0%nat).
  simpl. lia.
Defined.


(** X7 on the run of [detour_rand]. *)
Lemma tree_append_only_witness :
  (length (initial_tree open_grid) <= length detour_tree
   <= length (initial_tree open_grid) + 4)%nat /\
  forall j, (j < length (initial_tree open_grid))%nat ->
    point (detour_tree !!! j) = point (initial_tree open_grid !!! j).
Proof.
  exact (tree_append_only open_grid sqrt6 ln_series detour_rand 4 0
           (initial_tree open_grid) detour_tree (or_introl detour_tree_at)).
Defined.

(** X8 on the run of [detour_rand]: the node (82, 74), from the tree after
    three rounds to the tree after four. *)
Lemma detour_round3_loop :
  rrt_loop open_grid sqrt6 ln_series detour_rand 1 3 detour_tree3 =
  Exhausted detour_tree.
Proof. vm_compute. reflexivity. Qed.

Lemma cost_never_increases_witness :
  cost (detour_tree !!! 2%nat) <= cost (detour_tree3 !!! 2%nat).
Proof.
  apply (cost_never_increases open_grid sqrt6 ln_series detour_rand 1 3
           detour_tree3 detour_tree 2 (or_introl detour_round3_loop)).
  vm_compute. lia.
Defined.


(** X11 on the run of [detour_rand]: the path to the node (82, 104). *)
Lemma raw_path_ends_witness :
  exists path,
    extractPath (length detour_tree) detour_tree 3 = Some path /\
    head path = Some (startPt open_grid) /\
    last path = Some (point (detour_tree !!! 3%nat)).
Proof.
  assert (H3 : (3 < length detour_tree)%nat) by (vm_compute; lia).
  exact (raw_path_ends open_grid sqrt6 ln_series detour_rand sqrt6_nonneg
           detour_tree 3 detour_tree_state H3).
Defined.



(** X13 on [free_path]: the middle point is dropped. *)
Lemma smooth_line_of_sight_witness :
  smooth corner_blocked 1 free_path = Some [mkPoint 105 20; mkPoint 199 99].
Proof.
  apply (smooth_line_of_sight corner_blocked free_path 1).
  - simpl. lia.
  - lia.
  - vm_compute. reflexivity.
Defined.

(** X14 on [free_path]. *)
Lemma smooth_sublist_witness :
  [mkPoint 105 20; mkPoint 199 99] `sublist_of` free_path.
Proof.
  apply (smooth_sublist corner_blocked free_path _ 1).
  - discriminate.
  - vm_compute. reflexivity.
Defined.

Lemma empty_grid_click :
  mouseCallback LBUTTONDOWN 10 10 empty_grid <> empty_grid.
Proof. intros E. apply (f_equal undoStack) in E. discriminate E. Qed.

(** X16 on a grid of 5 cells a side: a click at the pixel (10, 10). *)
Lemma click_undo_witness :
  obstacles (keyPressed Key_u (mouseCallback LBUTTONDOWN 10 10 empty_grid)) =
    obstacles empty_grid /\
  undoStack (keyPressed Key_u (mouseCallback LBUTTONDOWN 10 10 empty_grid)) =
    undoStack empty_grid /\
  redoStack (keyPressed Key_u (mouseCallback LBUTTONDOWN 10 10 empty_grid)) =
    [(Z.quot 10 (cellSize empty_grid), Z.quot 10 (cellSize empty_grid))].
Proof.
  exact (click_undo empty_grid 10 10 empty_grid_click).
Defined.

(** X17 on [open_grid]. *)
Lemma configured_picked_witness :
  fst (start open_grid) <> (-1)%Z /\ fst (goal open_grid) <> (-1)%Z.
Proof.
  apply (configured_picked 5
           [Mouse RBUTTONDOWN 10 10; Mouse RBUTTONDOWN 410 10; Pressed Key_s]).
  vm_compute. reflexivity.
Defined.

(** X18 on [open_grid], where the start is the cell (0, 0): two more right
    clicks leave it there. *)
Lemma start_picked_once_witness :
  start (setup [Mouse RBUTTONDOWN 210 310; Mouse RBUTTONDOWN 110 10]
           (mouseCallback RBUTTONDOWN 10 10 empty_grid)) =
  start (mouseCallback RBUTTONDOWN 10 10 empty_grid).
Proof.
  apply (start_picked_once _ (mouseCallback RBUTTONDOWN 10 10 empty_grid)).
  vm_compute. reflexivity.
Defined.

(** X19 on [start_on_obstacle]: the obstacle (0, 0). *)
Lemma obstacles_inside_grid_witness : (0 <= 0 < 5)%Z /\ (0 <= 0 < 5)%Z.
Proof.
  apply (obstacles_inside_grid 5 start_on_obstacle 0 0).
  - vm_compute. split; [reflexivity|discriminate].
  - unfold start_on_obstacle. repeat constructor; discriminate.
  - apply (bool_decide_eq_true_1
             ((0%Z, 0%Z) ∈ obstacles (configure 5 start_on_obstacle))).
    vm_compute. reflexivity.
Defined.
